(** * Twister: the edit-operation permutation engine

    A shallow embedding of the core of [twister.py] (the six edit
    operations, [EditOp.apply] and [generate_users]) together with the
    properties of the engine.

    Python strings are [string]s; [list(string)] and [''.join(chars)] are
    the conversions to and from [list ascii].  A Python exception
    ([IndexError], [KeyError], [ValueError]) is [None] in the [option]
    monad; the dictionaries of [SubOp] and [InsOp] are [gmap]s keyed by
    characters. *)

From Stdlib Require Import Ascii String.
From stdpp Require Import base option list gmap strings.

Local Open Scope nat_scope.

(** ** Python and itertools primitives *)

(** [list(string)] *)
Definition chars_of (s : string) : list ascii := list_ascii_of_string s.

(** [''.join(chars)] for a list of characters *)
Definition join (chars : list ascii) : string := string_of_list_ascii chars.

(** [''.join(chars)] for a list of strings *)
Definition join_strs (chars : list string) : string :=
  foldr String.app ""%string chars.

(** [chars[i] = x]: an index out of range raises. *)
Definition set_item {A} (chars : list A) (i : nat) (x : A) : option (list A) :=
  if decide (i < length chars) then Some (<[i:=x]> chars) else None.

(** [enumerate(l)], counting from [n] *)
Fixpoint enumerate_from {A} (n : nat) (l : list A) : list (nat * A) :=
  match l with
  | [] => []
  | x :: l' => (n, x) :: enumerate_from (S n) l'
  end.

Definition enumerate {A} (l : list A) : list (nat * A) := enumerate_from 0 l.

(** [itertools.combinations(l, r)]: the [r]-element subsequences of [l],
    in lexicographic order of their positions. *)
Fixpoint combinations {A} (r : nat) (l : list A) : list (list A) :=
  match r with
  | 0 => [[]]
  | S r' =>
      match l with
      | [] => []
      | x :: l' => map (cons x) (combinations r' l') ++ combinations r l'
      end
  end.

(** [itertools.product] of the lists [ls]: the last component varies fastest. *)
Fixpoint product {A} (ls : list (list A)) : list (list A) :=
  match ls with
  | [] => [[]]
  | l :: ls' => x ← l; map (cons x) (product ls')
  end.

(** ** The edit operations *)

(** A substitution or insertion site: [(i, self.cases[c])]. *)
Abbreviation site := (nat * list ascii)%type.

(** The six subclasses of [EditOp] with their fields [cases] and [max].
    The keys and values of the tables are characters: [parse_char] and
    [parse_char_set] accept strings of exactly one character.  [PreOp] and
    [SufOp] override [apply] and never read [max]. *)
Inductive EditOp : Type :=
  | SubOp (cases : gmap ascii (list ascii)) (max : nat)
  | TraOp (cases : list (list ascii)) (max : nat)
  | InsOp (cases : gmap ascii (list ascii)) (max : nat)
  | DelOp (cases : list ascii) (max : nat)
  | PreOp (cases : list string)
  | SufOp (cases : list string).

(** [EditOp.apply]: for [i] in [range(max)], for every combination of
    [i+1] sites, extend the output by [generate(string, edit)]. *)
Definition edit_apply {E} (edits : string → option (list E))
    (generate : string → list E → option (list string))
    (max : nat) (s : string) : option (list string) :=
  es ← edits s;
  strs ← mapM (generate s) (i ← seq 0 max; combinations (S i) es);
  Some (mjoin strs).

(** *** SubOp *)

(** The loop [for i, char in enumerate(ed): chars[edit[i][0]] = char],
    entered at index [i]. *)
Fixpoint sub_assign (edit : list site) (i : nat) (ed : list ascii)
    (chars : list ascii) : option (list ascii) :=
  match ed with
  | [] => Some chars
  | char :: ed' =>
      e ← edit !! i;
      chars' ← set_item chars e.1 char;
      sub_assign edit (S i) ed' chars'
  end.

Definition sub_generate (s : string) (edit : list site) : option (list string) :=
  mapM (λ ed, join <$> sub_assign edit 0 ed (chars_of s)) (product (edit.*2)).

(** [[(i, self.cases[c]) for i, c in enumerate(string) if c in self.cases]] *)
Definition sub_edits (cases : gmap ascii (list ascii)) (s : string) : list site :=
  omap (λ ic, (λ v, (ic.1, v)) <$> cases !! ic.2) (enumerate (chars_of s)).

(** *** TraOp *)

(** One turn of the loop of [TraOp.generate]. *)
Definition tra_swap (chars : list ascii) (i : nat) : option (list ascii) :=
  char ← chars !! i;
  next ← chars !! (S i);
  chars1 ← set_item chars i next;
  set_item chars1 (S i) char.

Fixpoint tra_swaps (edit : list nat) (chars : list ascii) : option (list ascii) :=
  match edit with
  | [] => Some chars
  | i :: edit' => chars' ← tra_swap chars i; tra_swaps edit' chars'
  end.

Definition tra_generate (s : string) (edit : list nat) : option (list string) :=
  chars ← tra_swaps edit (chars_of s); Some [join chars].

(** [[i for i in range(len(string)-1)
        if [string[i], string[i+1]] in self.cases]] *)
Definition tra_edits (cases : list (list ascii)) (s : string) : option (list nat) :=
  let chars := chars_of s in
  found ← mapM (λ i, a ← chars !! i; b ← chars !! (S i);
                     Some (if decide ([a; b] ∈ cases) then [i] else []))
                (seq 0 (length chars - 1));
  Some (mjoin found).

(** *** InsOp *)

(** The loop [for i, char in enumerate(ed): chars[edit[i][0]] += char]. *)
Fixpoint ins_assign (edit : list site) (i : nat) (ed : list ascii)
    (chars : list string) : option (list string) :=
  match ed with
  | [] => Some chars
  | char :: ed' =>
      e ← edit !! i;
      old ← chars !! e.1;
      chars' ← set_item chars e.1 (old +:+ String char "");
      ins_assign edit (S i) ed' chars'
  end.

Definition ins_generate (s : string) (edit : list site) : option (list string) :=
  strs ← mapM (λ ed, join_strs <$>
                 ins_assign edit 0 ed ((λ c, String c "") <$> chars_of s))
              (product (edit.*2));
  Some (filter (λ chars, (String.length chars ≤ 15)%nat) strs).

Definition ins_edits (cases : gmap ascii (list ascii)) (s : string) : list site :=
  omap (λ ic, (λ v, (ic.1, v)) <$> cases !! ic.2) (enumerate (chars_of s)).

(** *** DelOp *)

Definition del_generate (s : string) (edit : list nat) : list string :=
  let chars := (filter (λ ic, ic.1 ∉ edit) (enumerate (chars_of s))).*2 in
  match chars with
  | [] => []
  | _ => [join chars]
  end.

Definition del_edits (cases : list ascii) (s : string) : list nat :=
  (filter (λ ic, ic.2 ∈ cases) (enumerate (chars_of s))).*1.

(** *** PreOp and SufOp *)

Definition pre_apply (cases : list string) (s : string) : list string :=
  filter (λ string2, (String.length string2 ≤ 15)%nat) ((λ string1, string1 +:+ s) <$> cases).

Definition suf_apply (cases : list string) (s : string) : list string :=
  filter (λ string2, (String.length string2 ≤ 15)%nat) ((λ string1, s +:+ string1) <$> cases).

(** *** Dispatch *)

Definition apply (op : EditOp) (s : string) : option (list string) :=
  match op with
  | SubOp cases max =>
      edit_apply (λ s, Some (sub_edits cases s)) sub_generate max s
  | TraOp cases max => edit_apply (tra_edits cases) tra_generate max s
  | InsOp cases max =>
      edit_apply (λ s, Some (ins_edits cases s)) ins_generate max s
  | DelOp cases max =>
      edit_apply (λ s, Some (del_edits cases s))
                 (λ s edit, Some (del_generate s edit)) max s
  | PreOp cases => Some (pre_apply cases s)
  | SufOp cases => Some (suf_apply cases s)
  end.

(** ** The profile engine *)

(** [if user1 not in set(users + temp): temp.append(user1)] *)
Definition stage (users temp : list string) (user1 : string) : list string :=
  if decide (user1 ∈ users ++ temp) then temp else temp ++ [user1].

(** The body of [for user in users]: every output of [op.apply(user)] is
    staged in turn. *)
Definition expand_user (op : EditOp) (users temp : list string)
    (user : string) : option (list string) :=
  strs ← apply op user; Some (foldl (stage users) temp strs).

Fixpoint expand_users (op : EditOp) (users temp todo : list string)
    : option (list string) :=
  match todo with
  | [] => Some temp
  | user :: todo' =>
      temp' ← expand_user op users temp user;
      expand_users op users temp' todo'
  end.

(** The body of [for op in profile], ending in [users.extend(temp)]. *)
Definition expand_op (users : list string) (op : EditOp) : option (list string) :=
  temp ← expand_users op users [] users; Some (users ++ temp).

Fixpoint expand_profile (users : list string) (profile : list EditOp)
    : option (list string) :=
  match profile with
  | [] => Some users
  | op :: profile' => users' ← expand_op users op; expand_profile users' profile'
  end.

(** [users.remove(target)]: drops the first occurrence; raises when there
    is none. *)
Fixpoint list_remove (x : string) (l : list string) : option (list string) :=
  match l with
  | [] => None
  | y :: l' => if decide (y = x) then Some l' else cons y <$> list_remove x l'
  end.

Definition generate_users (target : string) (profile : list EditOp)
    : option (list string) :=
  users ← expand_profile [target] profile; list_remove target users.

(** ** Derived definitions

    Closed forms of the loops above, used to state what they compute. *)

(** The assignments [chars[p] = x] for the pairs [(p, x)] of [choice], in
    order, on a buffer where every position is in range. *)
Definition assign_all (chars : list ascii) (choice : list (nat * ascii))
    : list ascii :=
  foldl (λ acc px, <[px.1:=px.2]> acc) chars choice.

(** The updates [chars[p] += x] for the pairs [(p, x)] of [choice]. *)
Definition append_all (chars : list string) (choice : list (nat * ascii))
    : list string :=
  foldl (λ acc px, alter (λ old, old +:+ String px.2 "") px.1 acc) chars choice.

(** The swap of the characters at [i] and [i+1] of a buffer that has
    both. *)
Definition swap_chars (chars : list ascii) (i : nat) : list ascii :=
  match chars !! i, chars !! S i with
  | Some char, Some next => <[S i:=char]> (<[i:=next]> chars)
  | _, _ => chars
  end.

(** The outputs of [SubOp.generate] and of [InsOp.generate] for a
    combination whose positions are in range. *)
Definition sub_strs (s : string) (edit : list site) : list string :=
  (λ ed, join (assign_all (chars_of s) (zip edit.*1 ed))) <$> product (edit.*2).

Definition ins_strs (s : string) (edit : list site) : list string :=
  filter (λ chars, String.length chars ≤ 15)
    ((λ ed, join_strs (append_all ((λ c, String c "") <$> chars_of s)
                                  (zip edit.*1 ed))) <$> product (edit.*2)).

(** Following the specification's words: the positions of a combination
    are removed "simultaneously", each one naming a character of the
    input.  Removing them one at a time, the rightmost first, keeps every
    pending position valid. *)
Definition remove_positions (chars : list ascii) (ps : list nat) : list ascii :=
  foldr delete chars ps.

(** The combinations visited by [EditOp.apply], in the order of the two
    loops: sizes [1 .. max], and for each size the combinations of the
    site list. *)
Definition site_combinations {E} (max : nat) (es : list E) : list (list E) :=
  i ← seq 0 max; combinations (S i) es.

(** Following the specification's words: every chosen character is
    appended immediately after the existing character at its position;
    [choice] pairs the positions of a combination with the characters of
    a product tuple. *)
Definition insert_after (chars : list ascii) (choice : list (nat * ascii))
    : list ascii :=
  ic ← enumerate chars; ic.2 :: (filter (λ px, px.1 = ic.1) choice).*2.

(** Following the specification's words: the "independent,
    non-interacting swaps" that [TraOp.generate] does not perform.  Every
    swap reads its two characters from the input [chars], whatever the
    earlier swaps have written. *)
Definition independent_swaps (chars : list ascii) (edit : list nat) : list ascii :=
  foldl (λ acc i,
           match chars !! i, chars !! S i with
           | Some char, Some next => <[S i:=char]> (<[i:=next]> acc)
           | _, _ => acc
           end) chars edit.

(** The states [(users, temp)] the two lists of [generate_users] go
    through: [temp.append(user1)] under its guard, for an output of any
    operation of the profile on any string of the pool, and
    [users.extend(temp)]. *)
Inductive pool_state (target : string) (profile : list EditOp)
    : list string → list string → Prop :=
  | pool_init : pool_state target profile [target] []
  | pool_stage users temp op user strs user1 :
      pool_state target profile users temp →
      op ∈ profile → user ∈ users →
      apply op user = Some strs → user1 ∈ strs →
      pool_state target profile users (stage users temp user1)
  | pool_extend users temp :
      pool_state target profile users temp →
      pool_state target profile (users ++ temp) [].

(** The case table of an operation is empty. *)
Definition empty_table (op : EditOp) : Prop :=
  match op with
  | SubOp cases _ | InsOp cases _ => cases = ∅
  | TraOp cases _ => cases = []
  | DelOp cases _ => cases = []
  | PreOp cases | SufOp cases => cases = []
  end.

(** The number of edit sites [self.edits(string)] finds, for the
    positional kinds. *)
Definition site_count (op : EditOp) (s : string) : option nat :=
  match op with
  | SubOp cases _ => Some (length (sub_edits cases s))
  | TraOp cases _ => length <$> tra_edits cases s
  | InsOp cases _ => Some (length (ins_edits cases s))
  | DelOp cases _ => Some (length (del_edits cases s))
  | PreOp _ | SufOp _ => None
  end.

(** The same operation with another bound [max]. *)
Definition with_max (op : EditOp) (max : nat) : EditOp :=
  match op with
  | SubOp cases _ => SubOp cases max
  | TraOp cases _ => TraOp cases max
  | InsOp cases _ => InsOp cases max
  | DelOp cases _ => DelOp cases max
  | PreOp cases => PreOp cases
  | SufOp cases => SufOp cases
  end.

(** The case maps and tables of the examples. *)
Definition o_to_0 : gmap ascii (list ascii) := {[ "o"%char := ["0"%char] ]}.

(** ** The batch driver and the helpers of the parsers *)

(** [unique]: [list(collections.OrderedDict.fromkeys(elems))], the keys in
    the order of their first insertion. *)
Definition unique {A} `{EqDecision A} (elems : list A) : list A :=
  foldl (λ keys x, if decide (x ∈ keys) then keys else keys ++ [x]) [] elems.

(** The value [generate_all] returns: [users.extend(generate_users(...))]
    for every target in turn. *)
Fixpoint generate_all (targets : list string) (profile : list EditOp)
    : option (list string) :=
  match targets with
  | [] => Some []
  | target :: targets' =>
      users ← generate_users target profile;
      rest ← generate_all targets' profile;
      Some (users ++ rest)
  end.

(** [generate_users] with what it prints: [success(user1, quiet)] writes
    the line ['[+] ' + user1] unless [quiet]; [out] is the standard
    output so far. *)
Definition success (msg : string) (quiet : bool) (out : list string) : list string :=
  if quiet then out else out ++ ["[+] " +:+ msg].

Definition stage_out (quiet : bool) (users : list string)
    (st : list string * list string) (user1 : string)
    : list string * list string :=
  if decide (user1 ∈ users ++ st.1) then st
  else (st.1 ++ [user1], success user1 quiet st.2).

Fixpoint expand_users_out (quiet : bool) (op : EditOp) (users : list string)
    (st : list string * list string) (todo : list string)
    : option (list string * list string) :=
  match todo with
  | [] => Some st
  | user :: todo' =>
      strs ← apply op user;
      expand_users_out quiet op users (foldl (stage_out quiet users) st strs) todo'
  end.

Fixpoint expand_profile_out (quiet : bool) (users : list string)
    (out : list string) (profile : list EditOp)
    : option (list string * list string) :=
  match profile with
  | [] => Some (users, out)
  | op :: profile' =>
      st ← expand_users_out quiet op users ([], out) users;
      expand_profile_out quiet (users ++ st.1) st.2 profile'
  end.

Definition generate_users_out (target : string) (profile : list EditOp)
    (quiet : bool) : option (list string * list string) :=
  st ← expand_profile_out quiet [target] [] profile;
  users ← list_remove target st.1;
  Some (users, st.2).

(** The lines [success] writes for the strings of [l], one call each. *)
Definition success_lines (quiet : bool) (l : list string) : list string :=
  if quiet then [] else (λ user, "[+] " +:+ user)%string <$> l.

(** *** Decoded JSON

    What [json.loads] returns.  An object keeps the order of its keys;
    [number] stands for the numbers, which only [int] inspects. *)
Unset Elimination Schemes.
Inductive json (number : Type) : Type :=
  | JNull
  | JBool (b : bool)
  | JNum (n : number)
  | JStr (s : string)
  | JList (l : list (json number))
  | JDict (items : list (string * json number)).
Set Elimination Schemes.

Arguments JNull {number}.
Arguments JBool {number} b.
Arguments JNum {number} n.
Arguments JStr {number} s.
Arguments JList {number} l.
Arguments JDict {number} items.

(** [obj[k]] on a dictionary: [KeyError] when the key is missing. *)
Fixpoint dict_get {V} (items : list (string * V)) (k : string) : option V :=
  match items with
  | [] => None
  | kv :: items' => if decide (kv.1 = k) then Some kv.2 else dict_get items' k
  end.

(** The class [[a-zA-Z0-9_]]. *)
Definition is_word_char (c : ascii) : bool :=
  let n := nat_of_ascii c in
  (bool_decide (97 ≤ n ≤ 122) || bool_decide (65 ≤ n ≤ 90)
   || bool_decide (48 ≤ n ≤ 57) || bool_decide (n = 95))%bool.

(** [valid_chars.match(obj)] for the pattern [^[a-zA-Z0-9_]+$]: one or
    more characters of the class up to the end of the string; without
    [re.MULTILINE], [$] also matches just before a newline that ends the
    string. *)
Fixpoint match_word_chars (chars : list ascii) : bool :=
  match chars with
  | [] => false
  | c :: rest =>
      is_word_char c &&
      match rest with
      | [] => true
      | [nl] => bool_decide (nl = "010"%char) || match_word_chars rest
      | _ => match_word_chars rest
      end
  end.

Definition valid_chars (s : string) : bool := match_word_chars (chars_of s).

(** [str.lower], on the characters [valid_chars] lets through. *)
Definition lower_char (c : ascii) : ascii :=
  let n := nat_of_ascii c in
  if bool_decide (65 ≤ n ≤ 90) then ascii_of_nat (n + 32) else c.

Definition lower (s : string) : string := join (lower_char <$> chars_of s).

(** *** The parsers

    [None] is any exception: the [ArgumentTypeError] of [arg_error], a
    [KeyError], or what [int] raises. *)
Section parsers.
Context {number : Type}.

(** The builtin [int], on a decoded value. *)
Variable py_int : json number → option Z.

Definition parse_str (obj : json number) (min max : nat) : option string :=
  match obj with
  | JStr s =>
      if decide (min = max ∧ String.length s ≠ min) then None
      else if decide (String.length s < min) then None
      else if decide (max < String.length s) then None
      else if valid_chars s then Some (lower s)
      else None
  | _ => None
  end.

Definition parse_str_set (obj : json number) (min max : nat)
    : option (list string) :=
  match obj with
  | JList l => strs ← mapM (λ o, parse_str o min max) l; Some (unique strs)
  | _ => None
  end.

(** A string of one character, as a character. *)
Definition char_of (s : string) : option ascii :=
  match s with
  | String c EmptyString => Some c
  | _ => None
  end.

Definition parse_char (obj : json number) : option ascii :=
  s ← parse_str obj 1 1; char_of s.

Definition parse_char_set (obj : json number) : option (list ascii) :=
  strs ← parse_str_set obj 1 1; mapM char_of strs.

Definition parse_int (obj : json number) : option Z := py_int obj.

Definition parse_nneg_int (obj : json number) : option Z :=
  num ← parse_int obj; if decide (num < 0)%Z then None else Some num.

Definition parse_pos_int (obj : json number) : option Z :=
  num ← parse_int obj; if decide (num < 1)%Z then None else Some num.

(** [parse_op]: every key is [key], or ["max"] when [max] is set, and
    then ["max"] is present; the result has the items of [obj]. *)
Definition parse_op (items : list (string * json number)) (key : string)
    (max : bool) : option (list (string * json number)) :=
  if forallb (λ kv, bool_decide (kv.1 = key)
                    || (max && bool_decide (kv.1 = "max"%string))) items
  then if max && negb (bool_decide ("max"%string ∈ items.*1)) then None
       else Some items
  else None.

Definition as_dict (obj : json number) : option (list (string * json number)) :=
  match obj with JDict items => Some items | _ => None end.

Definition as_list (obj : json number) : option (list (json number)) :=
  match obj with JList l => Some l | _ => None end.

(** The loop of [parse_sub_op] over the items of [op['sub']]. *)
Fixpoint parse_subs (items : list (string * json number))
    (subs : gmap ascii (list ascii)) : option (gmap ascii (list ascii)) :=
  match items with
  | [] => Some subs
  | (string, obj) :: items' =>
      char ← parse_char (JStr string);
      chars0 ← parse_char_set obj;
      let chars := filter (λ c, c ≠ char) chars0 in
      parse_subs items' (match chars with
                         | [] => subs
                         | _ => <[char:=chars]> subs
                         end)
  end.

Definition parse_sub_op (items : list (string * json number)) : option EditOp :=
  op ← parse_op items "sub" true;
  sub ← dict_get op "sub"%string;
  entries ← as_dict sub;
  subs ← parse_subs entries ∅;
  maxv ← dict_get op "max"%string;
  n ← parse_pos_int maxv;
  Some (SubOp subs (Z.to_nat n)).

(** The loop of [parse_tra_op] over the elements of [op['tra']]. *)
Fixpoint parse_tras (l : list (json number)) (tras : list (list ascii))
    : option (list (list ascii)) :=
  match l with
  | [] => Some tras
  | obj :: l' =>
      chars ← parse_char_set obj;
      if decide (length chars ≠ 2) then None
      else parse_tras l' (if decide (chars ∈ tras) then tras
                          else tras ++ [chars])
  end.

Definition parse_tra_op (items : list (string * json number)) : option EditOp :=
  op ← parse_op items "tra" true;
  tra ← dict_get op "tra"%string;
  l ← as_list tra;
  tras ← parse_tras l [];
  maxv ← dict_get op "max"%string;
  n ← parse_pos_int maxv;
  Some (TraOp tras (Z.to_nat n)).

(** The dictionary comprehension of [parse_ins_op]. *)
Fixpoint parse_ins (items : list (string * json number))
    (ins : gmap ascii (list ascii)) : option (gmap ascii (list ascii)) :=
  match items with
  | [] => Some ins
  | (s, o) :: items' =>
      char ← parse_char (JStr s);
      chars ← parse_char_set o;
      parse_ins items' (<[char:=chars]> ins)
  end.

Definition parse_ins_op (items : list (string * json number)) : option EditOp :=
  op ← parse_op items "ins" true;
  entries0 ← dict_get op "ins"%string;
  entries ← as_dict entries0;
  ins ← parse_ins entries ∅;
  maxv ← dict_get op "max"%string;
  n ← parse_pos_int maxv;
  Some (InsOp ins (Z.to_nat n)).

Definition parse_del_op (items : list (string * json number)) : option EditOp :=
  op ← parse_op items "del" true;
  del ← dict_get items "del"%string;
  chars ← parse_char_set del;
  maxv ← dict_get op "max"%string;
  n ← parse_pos_int maxv;
  Some (DelOp chars (Z.to_nat n)).

Definition parse_pre_op (items : list (string * json number)) : option EditOp :=
  op ← parse_op items "pre" false;
  pre ← dict_get op "pre"%string;
  strs ← parse_str_set pre 1 14;
  Some (PreOp strs).

Definition parse_suf_op (items : list (string * json number)) : option EditOp :=
  op ← parse_op items "suf" false;
  suf ← dict_get op "suf"%string;
  strs ← parse_str_set suf 1 14;
  Some (SufOp strs).

(** [op_parsers] *)
Definition op_parsers
    : list (string * (list (string * json number) → option EditOp)) :=
  [("sub"%string, parse_sub_op); ("tra"%string, parse_tra_op);
   ("ins"%string, parse_ins_op); ("del"%string, parse_del_op);
   ("pre"%string, parse_pre_op); ("suf"%string, parse_suf_op)].

(** The body of the loop of [parse_profile] for one element. *)
Definition parse_profile_op (obj1 : json number) : option EditOp :=
  items ← as_dict obj1;
  match filter (λ k, k ∈ op_parsers.*1) items.*1 with
  | [key] => parser ← dict_get op_parsers key; parser items
  | _ => None
  end.

(** [parse_profile] once the profile is decoded: what follows
    [json.load] and [json.loads]. *)
Definition parse_profile_obj (obj : json number) : option (list EditOp) :=
  l ← as_list obj; mapM parse_profile_op l.

(** [parse_user] *)
Definition parse_user (s : string) : option string :=
  let s' := match s with
            | String "@" rest => rest
            | _ => s
            end in
  parse_str (JStr s') 1 15.
End parsers.

(** ** Notions used to state the properties of the engine and the parsers *)

(** [derives profile u v]: [v] is obtained from [u] by operations of
    [profile], taken in the order of the profile and each at most once;
    every step picks one output of [apply]. *)
Inductive derives : list EditOp → string → string → Prop :=
  | derives_done u : derives [] u u
  | derives_skip op profile u v :
      derives profile u v → derives (op :: profile) u v
  | derives_step op profile u strs w v :
      apply op u = Some strs → w ∈ strs → derives profile w v →
      derives (op :: profile) u v.

(** The characters an operation can write: the values of its table. *)
Definition op_chars (op : EditOp) : list ascii :=
  match op with
  | SubOp cases _ | InsOp cases _ => mjoin (map_to_list cases).*2
  | TraOp _ _ | DelOp _ _ => []
  | PreOp cases | SufOp cases => mjoin (chars_of <$> cases)
  end.

(** The shape of the tables the parsers build. *)
Definition valid_op (op : EditOp) : Prop :=
  match op with
  | SubOp cases max =>
      1 ≤ max ∧
      ∀ c reps, cases !! c = Some reps → reps ≠ [] ∧ NoDup reps ∧ c ∉ reps
  | TraOp cases max =>
      1 ≤ max ∧ NoDup cases ∧
      ∀ pair, pair ∈ cases → ∃ a b, pair = [a; b] ∧ a ≠ b
  | InsOp cases max =>
      1 ≤ max ∧ ∀ c reps, cases !! c = Some reps → NoDup reps
  | DelOp cases max => 1 ≤ max ∧ NoDup cases
  | PreOp cases | SufOp cases =>
      NoDup cases ∧ ∀ affix, affix ∈ cases → 1 ≤ String.length affix ≤ 14
  end.

(** The characters of a validated name: [[a-z0-9_]]. *)
Definition is_name_char (c : ascii) : bool :=
  let n := nat_of_ascii c in
  (bool_decide (97 ≤ n ≤ 122) || bool_decide (48 ≤ n ≤ 57)
   || bool_decide (n = 95))%bool.

(** The shape of a validated string: characters of [[a-z0-9_]], at least
    one, possibly followed by one final newline. *)
Definition name_shape (s : string) : Prop :=
  ∃ body, body ≠ [] ∧ Forall (λ c, is_name_char c = true) body ∧
          (chars_of s = body ∨ chars_of s = body ++ ["010"%char]).

(** The key that selects the parser of an operation in [op_parsers]. *)
Definition op_key (op : EditOp) : string :=
  match op with
  | SubOp _ _ => "sub"
  | TraOp _ _ => "tra"
  | InsOp _ _ => "ins"
  | DelOp _ _ => "del"
  | PreOp _ => "pre"
  | SufOp _ => "suf"
  end.

(** The bound [max] of a positional operation. *)
Definition op_max (op : EditOp) : option nat :=
  match op with
  | SubOp _ max | TraOp _ max | InsOp _ max | DelOp _ max => Some max
  | PreOp _ | SufOp _ => None
  end.

(** The characters of a table are validated characters, its affixes
    validated strings. *)
Definition op_table_names (op : EditOp) : Prop :=
  match op with
  | SubOp cases _ | InsOp cases _ =>
      ∀ c reps, cases !! c = Some reps →
        is_name_char c = true ∧ Forall (λ x, is_name_char x = true) reps
  | TraOp cases _ => Forall (Forall (λ x, is_name_char x = true)) cases
  | DelOp cases _ => Forall (λ x, is_name_char x = true) cases
  | PreOp cases | SufOp cases => Forall name_shape cases
  end.

(** ** Strings and their characters *)

Section strings.
Implicit Types (s t : string) (chars : list ascii).

Lemma join_chars_of s : join (chars_of s) = s.
Proof. apply string_of_list_ascii_of_string. Qed.

Lemma chars_of_join chars : chars_of (join chars) = chars.
Proof. apply list_ascii_of_string_of_list_ascii. Qed.

Lemma length_join chars : String.length (join chars) = length chars.
Proof. induction chars as [|c chars IH]; simpl; [done | by rewrite IH]. Qed.

Lemma length_chars_of s : length (chars_of s) = String.length s.
Proof. by rewrite <-(join_chars_of s) at 2; rewrite length_join. Qed.

Lemma join_inj chars1 chars2 : join chars1 = join chars2 → chars1 = chars2.
Proof. intros H. by rewrite <-(chars_of_join chars1), H, chars_of_join. Qed.

Lemma length_string_app s t :
  String.length (s +:+ t) = String.length s + String.length t.
Proof. induction s as [|c s IH]; simpl; [done | by rewrite IH]. Qed.

Lemma chars_of_app s t : chars_of (s +:+ t) = chars_of s ++ chars_of t.
Proof. induction s as [|c s IH]; simpl; [done | by rewrite <-IH]. Qed.
End strings.

(** ** Combinations, products and enumerations *)

Section itertools.
Context {A : Type}.
Implicit Types (l edit : list A) (ls : list (list A)).

Lemma combinations_sublist r l edit :
  edit ∈ combinations r l → edit `sublist_of` l ∧ length edit = r.
Proof.
  revert r edit. induction l as [|x l IH]; intros [|r] edit; simpl.
  - intros ->%list_elem_of_singleton. by split.
  - by intros ?%elem_of_nil.
  - intros ->%list_elem_of_singleton. split; [apply sublist_nil_l | done].
  - rewrite elem_of_app, list_elem_of_fmap.
    intros [(edit' & -> & Hin) | Hin].
    + destruct (IH _ _ Hin) as [Hsub Hlen].
      split; [by apply sublist_skip | by rewrite <-Hlen].
    + destruct (IH _ _ Hin) as [Hsub Hlen].
      split; [by apply sublist_cons | done].
Qed.

Lemma sublist_combinations l edit :
  edit `sublist_of` l → edit ∈ combinations (length edit) l.
Proof.
  induction 1 as [|x edit l _ IH|x edit l _ IH]; simpl.
  - apply list_elem_of_singleton; done.
  - apply elem_of_app. left. apply list_elem_of_fmap. eauto.
  - destruct edit as [|y edit]; simpl in *.
    + apply list_elem_of_singleton; done.
    + apply elem_of_app. by right.
Qed.

(** A size beyond the number of elements has no combination. *)
Lemma combinations_gt r l : length l < r → combinations r l = [].
Proof.
  revert r. induction l as [|x l IH]; intros [|r] Hlt; simpl in *; try lia.
  - done.
  - by rewrite !IH by lia.
Qed.

Lemma combinations_nil r : combinations (S r) (@nil A) = [].
Proof. done. Qed.

Lemma product_Forall2 ls ed :
  ed ∈ product ls ↔ Forall2 (λ x l, x ∈ l) ed ls.
Proof.
  revert ed. induction ls as [|l ls IH]; intros ed; simpl.
  - rewrite list_elem_of_singleton. split; [by intros -> | by inversion 1].
  - rewrite list_elem_of_bind. split.
    + intros (x & (ed' & -> & Hin)%list_elem_of_fmap & Hx).
      constructor; [done | by apply IH].
    + inversion 1 as [|x ? ed' ? Hx Hed]; subst.
      exists x. split; [| done].
      apply list_elem_of_fmap. exists ed'. split; [done | by apply IH].
Qed.

Lemma product_length ls ed : ed ∈ product ls → length ed = length ls.
Proof. intros ?%product_Forall2. by eapply Forall2_length. Qed.

Lemma lookup_enumerate_from n l i :
  enumerate_from n l !! i = (λ x, (n + i, x)) <$> l !! i.
Proof.
  revert n i. induction l as [|x l IH]; intros n [|i]; simpl; try done.
  - by rewrite Nat.add_0_r.
  - rewrite IH. by rewrite Nat.add_succ_r.
Qed.

Lemma elem_of_enumerate_from n l i x :
  (i, x) ∈ enumerate_from n l ↔ n ≤ i ∧ l !! (i - n) = Some x.
Proof.
  rewrite list_elem_of_lookup. setoid_rewrite lookup_enumerate_from. split.
  - intros (j & Hj). destruct (l !! j) as [y|] eqn:Hy; simplify_eq/=.
    split; [lia |]. by replace (n + j - n) with j by lia.
  - intros [Hle Hx]. exists (i - n). rewrite Hx. simpl.
    by replace (n + (i - n)) with i by lia.
Qed.

Lemma length_enumerate_from n l : length (enumerate_from n l) = length l.
Proof. revert n. induction l; intros; simpl; [done | by f_equal]. Qed.

Lemma fmap_snd_enumerate_from n l : (enumerate_from n l).*2 = l.
Proof. revert n. induction l; intros; simpl; [done | by f_equal]. Qed.

Lemma fmap_fst_enumerate_from n l : (enumerate_from n l).*1 = seq n (length l).
Proof. revert n. induction l; intros; simpl; [done | by f_equal]. Qed.
End itertools.

(** ** Edit sites *)

(** The positions of a combination of sites form a subsequence of
    [0, 1, ..., len(string)-1]: in range, increasing, without repeats. *)
Section positions.
Implicit Types (ps : list nat).

Lemma sublist_seq_bounds ps n m :
  ps `sublist_of` seq n m → Forall (λ i, n ≤ i < n + m) ps.
Proof.
  intros Hsub. apply Forall_forall. intros i Hi.
  by apply elem_of_seq, (elem_of_sublist ps).
Qed.

Lemma sublist_seq_lt ps m : ps `sublist_of` seq 0 m → Forall (λ i, i < m) ps.
Proof.
  intros Hsub%sublist_seq_bounds. eapply Forall_impl; [done |].
  intros; simpl in *; lia.
Qed.

Lemma sublist_seq_NoDup ps n m : ps `sublist_of` seq n m → NoDup ps.
Proof. apply sublist_NoDup, NoDup_seq. Qed.

Lemma sublist_seq_cons i ps n m :
  i :: ps `sublist_of` seq n m →
  n ≤ i ∧ ps `sublist_of` seq (S i) (n + m - S i).
Proof.
  revert n. induction m as [|m IH]; intros n; simpl.
  - by intros ?%sublist_nil_r.
  - intros [Hsub | (ps' & [= <- <-] & Hsub)]%sublist_cons_r.
    + destruct (IH _ Hsub) as [Hle Hps]. split; [lia |].
      by replace (n + S m - S i) with (S n + m - S i) by lia.
    + split; [done |]. by replace (i + S m - S i) with m by lia.
Qed.
End positions.

Section sites.
Implicit Types (cases : gmap ascii (list ascii)) (s : string).

Lemma map_sites_sublist cases n (chars : list ascii) :
  (omap (λ ic, (λ v, (ic.1, v)) <$> cases !! ic.2)
        (enumerate_from n chars)).*1 `sublist_of` seq n (length chars).
Proof.
  revert n. induction chars as [|c chars IH]; intros n; simpl; [done |].
  destruct (cases !! c); simpl.
  - by apply sublist_skip.
  - by apply sublist_cons.
Qed.

Lemma sub_edits_sublist cases s :
  (sub_edits cases s).*1 `sublist_of` seq 0 (String.length s).
Proof. rewrite <-length_chars_of. apply map_sites_sublist. Qed.

Lemma elem_of_sub_edits cases s i reps :
  (i, reps) ∈ sub_edits cases s ↔
  ∃ c, chars_of s !! i = Some c ∧ cases !! c = Some reps.
Proof.
  unfold sub_edits, enumerate. rewrite list_elem_of_omap. split.
  - intros ([j c] & [_ Hc]%elem_of_enumerate_from & Hreps); simpl in *.
    destruct (cases !! c) as [v|] eqn:Hv; simplify_eq/=.
    exists c. by rewrite Nat.sub_0_r in Hc.
  - intros (c & Hc & Hreps). exists (i, c). split.
    + apply elem_of_enumerate_from. by rewrite Nat.sub_0_r; split; [lia |].
    + simpl. by rewrite Hreps.
Qed.

Lemma ins_edits_sub_edits cases s : ins_edits cases s = sub_edits cases s.
Proof. done. Qed.

Lemma del_edits_sublist (cases : list ascii) s :
  del_edits cases s `sublist_of` seq 0 (String.length s).
Proof.
  unfold del_edits, enumerate.
  rewrite <-length_chars_of, <-(fmap_fst_enumerate_from 0 (chars_of s)).
  apply fmap_sublist, sublist_filter.
Qed.

Lemma elem_of_del_edits (cases : list ascii) s i :
  i ∈ del_edits cases s ↔ ∃ c, chars_of s !! i = Some c ∧ c ∈ cases.
Proof.
  unfold del_edits, enumerate. rewrite list_elem_of_fmap. split.
  - intros ([j c] & -> & [Hc [_ Hj]%elem_of_enumerate_from]%list_elem_of_filter).
    exists c. by rewrite Nat.sub_0_r in Hj.
  - intros (c & Hc & Hin). exists (i, c). split; [done |].
    apply list_elem_of_filter. split; [done |].
    apply elem_of_enumerate_from. by rewrite Nat.sub_0_r; split; [lia |].
Qed.

(** The scan of [TraOp.edits] never reads out of range. *)
Lemma tra_scan_Some (cases : list (list ascii)) (chars : list ascii) l :
  (∀ i, i ∈ l → S i < length chars) →
  ∃ found,
    mapM (λ i, a ← chars !! i; b ← chars !! S i;
               Some (if decide ([a; b] ∈ cases) then [i] else [])) l
      = Some found ∧ mjoin found `sublist_of` l ∧
    ∀ i, i ∈ mjoin found ↔ i ∈ l ∧
      ∃ a b, chars !! i = Some a ∧ chars !! S i = Some b ∧ [a; b] ∈ cases.
Proof.
  induction l as [|i l IH]; intros Hrange.
  - exists []. split; [done |]. split; [done |].
    intros i. simpl. rewrite !elem_of_nil. by split; [| intros [? _]].
  - destruct IH as (found & Hs & Hsub & Hin).
    { intros j Hj. apply Hrange. by right. }
    assert (S i < length chars) as Hi by (apply Hrange; left).
    destruct (lookup_lt_is_Some_2 chars i) as [a Ha]; [lia |].
    destruct (lookup_lt_is_Some_2 chars (S i)) as [b Hb]; [lia |].
    exists ((if decide ([a; b] ∈ cases) then [i] else []) :: found).
    split; [| split].
    + simpl. rewrite Ha, Hb. simpl. by rewrite Hs.
    + simpl. destruct (decide ([a; b] ∈ cases)); simpl.
      * by apply sublist_skip.
      * by apply sublist_cons.
    + intros j. simpl. rewrite elem_of_app, Hin, elem_of_cons.
      destruct (decide ([a; b] ∈ cases)) as [Hc|Hc].
      * rewrite list_elem_of_singleton. split.
        -- intros [-> | [? ?]]; [split; [by left | by eauto] | by split; [right |]].
        -- intros [[-> | ?] ?]; [by left | by right].
      * rewrite elem_of_nil. split.
        -- intros [[] | [? ?]]. by split; [right |].
        -- intros [[-> | ?] (a' & b' & ? & ? & ?)]; [by simplify_eq |].
           right. split; [done |]. by exists a', b'.
Qed.

Lemma tra_edits_Some (cases : list (list ascii)) s :
  ∃ sites, tra_edits cases s = Some sites ∧
    sites `sublist_of` seq 0 (String.length s - 1) ∧
    ∀ i, i ∈ sites ↔
      ∃ a b, chars_of s !! i = Some a ∧ chars_of s !! S i = Some b ∧
             [a; b] ∈ cases.
Proof.
  unfold tra_edits. rewrite <-length_chars_of.
  destruct (tra_scan_Some cases (chars_of s) (seq 0 (length (chars_of s) - 1)))
    as (found & Hs & Hsub & Hin).
  { intros i ?%elem_of_seq. lia. }
  exists (mjoin found). rewrite Hs. split; [done |]. split; [done |].
  intros i. rewrite Hin. split; [by intros [_ ?] |].
  intros (a & b & Ha & Hb & Hc). split; [| by eauto].
  apply elem_of_seq. apply lookup_lt_Some in Hb. lia.
Qed.
End sites.

(** ** The loops of [generate] *)

Section generate.
Implicit Types (edit : list site) (ed : list ascii) (s : string).

Lemma set_item_Some {A} (l : list A) i x :
  i < length l → set_item l i x = Some (<[i:=x]> l).
Proof. intros Hi. unfold set_item. by rewrite decide_True. Qed.

Lemma length_assign_all chars choice :
  length (assign_all chars choice) = length chars.
Proof.
  revert chars. induction choice as [|px choice IH]; intros chars; [done |].
  simpl. by rewrite IH, length_insert.
Qed.

Lemma length_append_all chars choice :
  length (append_all chars choice) = length chars.
Proof.
  revert chars. induction choice as [|px choice IH]; intros chars; [done |].
  simpl. by rewrite IH, length_alter.
Qed.

Lemma sub_assign_Some edit i ed chars :
  length ed ≤ length (drop i edit) →
  Forall (λ e, e.1 < length chars) edit →
  sub_assign edit i ed chars
  = Some (assign_all chars (zip (drop i edit).*1 ed)).
Proof.
  revert i chars. induction ed as [|char ed IH]; intros i chars Hlen Hrange.
  { simpl. by rewrite zip_with_nil_r. }
  simpl in Hlen. rewrite length_drop in Hlen.
  destruct (lookup_lt_is_Some_2 edit i) as [e He]; [lia |].
  cbn [sub_assign]. rewrite He. cbn [mbind option_bind].
  assert (e.1 < length chars) as Hp.
  { rewrite Forall_forall in Hrange. eapply Hrange, list_elem_of_lookup_2, He. }
  rewrite set_item_Some by done. cbn [mbind option_bind].
  rewrite IH.
  - by rewrite (drop_S _ _ _ He).
  - rewrite length_drop. lia.
  - eapply Forall_impl; [done |]. intros; simpl in *. by rewrite length_insert.
Qed.

Lemma ins_assign_Some edit i ed (chars : list string) :
  length ed ≤ length (drop i edit) →
  Forall (λ e, e.1 < length chars) edit →
  ins_assign edit i ed chars
  = Some (append_all chars (zip (drop i edit).*1 ed)).
Proof.
  revert i chars. induction ed as [|char ed IH]; intros i chars Hlen Hrange.
  { simpl. by rewrite zip_with_nil_r. }
  simpl in Hlen. rewrite length_drop in Hlen.
  destruct (lookup_lt_is_Some_2 edit i) as [e He]; [lia |].
  cbn [ins_assign]. rewrite He. cbn [mbind option_bind].
  assert (e.1 < length chars) as Hp.
  { rewrite Forall_forall in Hrange. eapply Hrange, list_elem_of_lookup_2, He. }
  destruct (lookup_lt_is_Some_2 chars e.1) as [old Hold]; [done |].
  rewrite Hold. cbn [mbind option_bind].
  rewrite set_item_Some by done. cbn [mbind option_bind].
  rewrite IH.
  - rewrite (drop_S _ _ _ He). simpl. f_equal. f_equal.
    apply list_eq. intros j. destruct (decide (j = e.1)) as [-> |].
    + by rewrite list_lookup_insert_eq, list_lookup_alter_eq, Hold.
    + by rewrite list_lookup_insert_ne, list_lookup_alter_ne.
  - rewrite length_drop. lia.
  - eapply Forall_impl; [done |]. intros; simpl in *. by rewrite length_insert.
Qed.

Lemma mapM_Some_fmap {A B} (f : A → option B) (g : A → B) (l : list A) :
  (∀ x, x ∈ l → f x = Some (g x)) → mapM f l = Some (g <$> l).
Proof.
  intros Hf. apply mapM_Some, Forall2_fmap_r, Forall_Forall2_diag.
  by apply Forall_forall.
Qed.

Lemma sub_generate_Some s edit :
  Forall (λ e, e.1 < String.length s) edit →
  sub_generate s edit = Some (sub_strs s edit).
Proof.
  intros Hrange. unfold sub_generate, sub_strs. apply mapM_Some_fmap.
  intros ed Hed%product_length. rewrite length_fmap in Hed.
  rewrite sub_assign_Some; [done | |].
  - rewrite drop_0. lia.
  - by rewrite length_chars_of.
Qed.

Lemma ins_generate_Some s edit :
  Forall (λ e, e.1 < String.length s) edit →
  ins_generate s edit = Some (ins_strs s edit).
Proof.
  intros Hrange. unfold ins_generate, ins_strs.
  rewrite (mapM_Some_fmap _
    (λ ed, join_strs (append_all ((λ c, String c "") <$> chars_of s)
                                 (zip edit.*1 ed)))); [done |].
  intros ed Hed%product_length. rewrite length_fmap in Hed.
  rewrite ins_assign_Some; [done | |].
  - rewrite drop_0. lia.
  - by rewrite length_fmap, length_chars_of.
Qed.

Lemma length_swap_chars chars i : length (swap_chars chars i) = length chars.
Proof.
  unfold swap_chars. destruct (chars !! i), (chars !! S i); try done.
  by rewrite !length_insert.
Qed.

Lemma tra_swap_Some chars i :
  S i < length chars → tra_swap chars i = Some (swap_chars chars i).
Proof.
  intros Hi. unfold tra_swap, swap_chars.
  destruct (lookup_lt_is_Some_2 chars i) as [a ->]; [lia |].
  destruct (lookup_lt_is_Some_2 chars (S i)) as [b ->]; [lia |].
  simpl. rewrite set_item_Some by lia. simpl.
  rewrite set_item_Some by (rewrite length_insert; lia). done.
Qed.

Lemma tra_swaps_Some (ps : list nat) chars :
  Forall (λ i, S i < length chars) ps →
  tra_swaps ps chars = Some (foldl swap_chars chars ps).
Proof.
  revert chars. induction ps as [|i ps IH]; intros chars Hrange; [done |].
  apply Forall_cons in Hrange as [Hi Hrange].
  simpl. rewrite tra_swap_Some by done. simpl. apply IH.
  eapply Forall_impl; [done |]. intros; simpl in *.
  by rewrite length_swap_chars.
Qed.

Lemma length_foldl_swap_chars (ps : list nat) chars :
  length (foldl swap_chars chars ps) = length chars.
Proof.
  revert chars. induction ps as [|i ps IH]; intros chars; [done |].
  simpl. by rewrite IH, length_swap_chars.
Qed.

Lemma tra_generate_Some s (ps : list nat) :
  Forall (λ i, S i < String.length s) ps →
  tra_generate s ps = Some [join (foldl swap_chars (chars_of s) ps)].
Proof.
  intros Hrange. unfold tra_generate.
  rewrite tra_swaps_Some; [done |]. by rewrite length_chars_of.
Qed.
End generate.

(** *** Deletion *)

Section deletion.
Implicit Types (chars : list ascii) (ps : list nat).

Lemma filter_ext_elem_of {A} (P Q : A → Prop)
    `{!∀ x, Decision (P x), !∀ x, Decision (Q x)} (l : list A) :
  (∀ x, x ∈ l → P x ↔ Q x) → filter P l = filter Q l.
Proof.
  induction l as [|x l IH]; intros HPQ; [done |].
  rewrite !filter_cons.
  rewrite IH by (intros y Hy; apply HPQ; by right).
  destruct (decide (P x)) as [HP|HP], (decide (Q x)) as [HQ|HQ]; try done.
  - destruct HQ. by apply HPQ; [left |].
  - destruct HP. by apply HPQ; [left |].
Qed.

Lemma foldr_delete_cons n c chars ps :
  Forall (λ i, n < i) ps →
  foldr (λ i acc, delete (i - n) acc) (c :: chars) ps
  = c :: foldr (λ i acc, delete (i - S n) acc) chars ps.
Proof.
  induction 1 as [|i ps Hi _ IH]; [done |].
  simpl. rewrite IH. by replace (i - n) with (S (i - S n)) by lia.
Qed.

Lemma del_filter_foldr n chars ps :
  ps `sublist_of` seq n (length chars) →
  (filter (λ ic, ic.1 ∉ ps) (enumerate_from n chars)).*2
  = foldr (λ i acc, delete (i - n) acc) chars ps.
Proof.
  revert n ps. induction chars as [|c chars IH]; intros n ps Hsub.
  { apply sublist_nil_r in Hsub as ->. done. }
  simpl in Hsub. apply sublist_cons_r in Hsub as [Hsub | (ps' & -> & Hsub)].
  - pose proof (sublist_seq_bounds _ _ _ Hsub) as Hb.
    simpl. rewrite filter_cons_True.
    + rewrite foldr_delete_cons
        by (eapply Forall_impl; [done |]; intros; simpl in *; lia).
      simpl. f_equal. by apply IH.
    + simpl. intros Hn. rewrite Forall_forall in Hb.
      specialize (Hb _ Hn). lia.
  - pose proof (sublist_seq_bounds _ _ _ Hsub) as Hb.
    simpl. rewrite filter_cons_False by (simpl; intros Hn; apply Hn; by left).
    rewrite foldr_delete_cons
      by (eapply Forall_impl; [done |]; intros; simpl in *; lia).
    rewrite Nat.sub_diag. simpl. rewrite <-IH by done. f_equal.
    apply filter_ext_elem_of. intros [i x] [Hi _]%elem_of_enumerate_from.
    simpl. rewrite not_elem_of_cons. split; [by intros [_ ?] |].
    intros ?. split; [lia | done].
Qed.

Lemma del_chars_remove_positions chars ps :
  ps `sublist_of` seq 0 (length chars) →
  (filter (λ ic, ic.1 ∉ ps) (enumerate chars)).*2 = remove_positions chars ps.
Proof.
  intros Hsub. unfold enumerate, remove_positions.
  rewrite del_filter_foldr by done. clear Hsub.
  induction ps as [|i ps IH]; [done |].
  simpl. by rewrite IH, Nat.sub_0_r.
Qed.

Lemma sublist_seq_length ps n m : ps `sublist_of` seq n m → length ps ≤ m.
Proof. intros ?%sublist_length. by rewrite length_seq in *. Qed.

Lemma length_remove_positions chars ps :
  ps `sublist_of` seq 0 (length chars) →
  length (remove_positions chars ps) = length chars - length ps.
Proof.
  unfold remove_positions.
  induction ps as [|i ps IH]; intros Hsub; simpl; [lia |].
  destruct (sublist_seq_cons _ _ _ _ Hsub) as [_ Hps].
  apply sublist_seq_length in Hps.
  pose proof (sublist_seq_lt _ _ Hsub) as Hi.
  apply Forall_cons in Hi as [Hi _].
  assert (ps `sublist_of` seq 0 (length chars)) as Hps'.
  { etrans; [| done]. by apply sublist_cons. }
  rewrite length_delete; [rewrite IH by done; lia |].
  apply lookup_lt_is_Some_2. rewrite IH by done. lia.
Qed.

Lemma del_generate_remove s ps :
  ps `sublist_of` seq 0 (String.length s) →
  del_generate s ps
  = if decide (length ps = String.length s) then []
    else [join (remove_positions (chars_of s) ps)].
Proof.
  intros Hsub. rewrite <-length_chars_of in *.
  unfold del_generate. rewrite del_chars_remove_positions by done.
  pose proof (length_remove_positions _ _ Hsub) as Hlen.
  pose proof (sublist_seq_length _ _ _ Hsub).
  destruct (remove_positions (chars_of s) ps) as [|c chars];
    simpl in Hlen; case_decide; try done; lia.
Qed.
End deletion.

(** ** [apply] *)

Section apply.
Implicit Types (s : string) (op : EditOp).

Lemma elem_of_site_combinations {E} max (es edit : list E) :
  edit ∈ site_combinations max es ↔
  1 ≤ length edit ≤ max ∧ edit `sublist_of` es.
Proof.
  unfold site_combinations. rewrite list_elem_of_bind. split.
  - intros (i & [Hsub Hlen]%combinations_sublist & Hi%elem_of_seq).
    split; [lia | done].
  - intros [Hlen Hsub]. exists (length edit - 1). split.
    + replace (S (length edit - 1)) with (length edit) by lia.
      by apply sublist_combinations.
    + apply elem_of_seq. lia.
Qed.

Lemma site_combinations_saturated {E} (es : list E) k :
  site_combinations (length es + k) es = site_combinations (length es) es.
Proof.
  assert (∀ m, length es ≤ m →
    seq m k ≫= (λ i, combinations (S i) es) = []) as Hnil.
  { induction k as [|k IH]; intros m Hm; [done |].
    simpl. rewrite combinations_gt by lia. rewrite IH by lia. done. }
  unfold site_combinations. rewrite seq_app, bind_app.
  rewrite Hnil by (simpl; lia). by rewrite app_nil_r.
Qed.

Lemma site_combinations_nil {E} max : site_combinations max (@nil E) = [].
Proof.
  unfold site_combinations. generalize 0 as n.
  induction max as [|max IH]; intros n; [done |]. simpl. apply IH.
Qed.

Lemma edit_apply_Some {E} (edits : string → option (list E)) generate
    (strs : list E → list string) max s es :
  edits s = Some es →
  (∀ edit, edit `sublist_of` es → generate s edit = Some (strs edit)) →
  edit_apply edits generate max s
  = Some (mjoin (strs <$> site_combinations max es)).
Proof.
  intros Hes Hgen. unfold edit_apply. rewrite Hes. simpl.
  rewrite (mapM_Some_fmap _ strs); [done |].
  intros edit [_ Hsub]%elem_of_site_combinations. by apply Hgen.
Qed.

Lemma sublist_sites_range (es edit : list site) n :
  es.*1 `sublist_of` seq 0 n → edit `sublist_of` es →
  edit.*1 `sublist_of` seq 0 n ∧ Forall (λ e, e.1 < n) edit.
Proof.
  intros Hes Hsub.
  assert (edit.*1 `sublist_of` seq 0 n) as Hps.
  { etrans; [| done]. by apply fmap_sublist. }
  split; [done |]. by apply sublist_seq_lt, Forall_fmap in Hps.
Qed.

Lemma apply_SubOp cases max s :
  apply (SubOp cases max) s
  = Some (mjoin (sub_strs s <$> site_combinations max (sub_edits cases s))).
Proof.
  apply edit_apply_Some; [done |]. intros edit Hsub.
  apply sub_generate_Some.
  by eapply sublist_sites_range; [apply sub_edits_sublist |].
Qed.

Lemma apply_InsOp cases max s :
  apply (InsOp cases max) s
  = Some (mjoin (ins_strs s <$> site_combinations max (ins_edits cases s))).
Proof.
  apply edit_apply_Some; [done |]. intros edit Hsub.
  apply ins_generate_Some.
  by eapply sublist_sites_range; [apply sub_edits_sublist |].
Qed.

Lemma apply_DelOp cases max s :
  apply (DelOp cases max) s
  = Some (mjoin (del_generate s <$> site_combinations max (del_edits cases s))).
Proof. by apply edit_apply_Some. Qed.

Lemma apply_TraOp cases max s :
  ∃ sites, tra_edits cases s = Some sites ∧
    apply (TraOp cases max) s
    = Some (mjoin ((λ ps, [join (foldl swap_chars (chars_of s) ps)])
                     <$> site_combinations max sites)).
Proof.
  destruct (tra_edits_Some cases s) as (sites & Hsites & Hsub & _).
  exists sites. split; [done |].
  apply (edit_apply_Some _ _ (λ ps, [join (foldl swap_chars (chars_of s) ps)]) _ _ sites);
    [done |].
  intros ps Hps. apply tra_generate_Some.
  assert (ps `sublist_of` seq 0 (String.length s - 1)) as Hb by by etrans.
  apply sublist_seq_lt in Hb. eapply Forall_impl; [done |].
  intros; simpl in *; lia.
Qed.

Lemma apply_is_Some op s : is_Some (apply op s).
Proof.
  destruct op as [cases max|cases max|cases max|cases max|cases|cases].
  - rewrite apply_SubOp. eauto.
  - destruct (apply_TraOp cases max s) as (? & _ & ->). eauto.
  - rewrite apply_InsOp. eauto.
  - rewrite apply_DelOp. eauto.
  - simpl. eauto.
  - simpl. eauto.
Qed.
End apply.

(** ** Lengths of the outputs *)

Section lengths.
Implicit Types (s out : string) (op : EditOp).

Lemma sub_strs_length s edit out :
  out ∈ sub_strs s edit → String.length out = String.length s.
Proof.
  intros (ed & -> & _)%list_elem_of_fmap.
  by rewrite length_join, length_assign_all, length_chars_of.
Qed.

Lemma swap_strs_length s (ps : list nat) :
  String.length (join (foldl swap_chars (chars_of s) ps)) = String.length s.
Proof. by rewrite length_join, length_foldl_swap_chars, length_chars_of. Qed.

Lemma ins_strs_length s edit out : out ∈ ins_strs s edit → String.length out ≤ 15.
Proof. by intros [? _]%list_elem_of_filter. Qed.

Lemma del_generate_length s ps out :
  out ∈ del_generate s ps → String.length out ≤ String.length s.
Proof.
  unfold del_generate.
  assert (length (filter (λ ic, ic.1 ∉ ps) (enumerate (chars_of s))).*2
          ≤ String.length s) as Hlen.
  { rewrite length_fmap. etrans; [apply length_filter |].
    unfold enumerate. by rewrite length_enumerate_from, length_chars_of. }
  destruct ((filter _ _).*2) as [|c chars]; [by intros ?%elem_of_nil |].
  intros ->%list_elem_of_singleton. by rewrite length_join.
Qed.

Lemma pre_apply_length cases s out : out ∈ pre_apply cases s → String.length out ≤ 15.
Proof. by intros [? _]%list_elem_of_filter. Qed.

Lemma suf_apply_length cases s out : out ∈ suf_apply cases s → String.length out ≤ 15.
Proof. by intros [? _]%list_elem_of_filter. Qed.

Lemma elem_of_mjoin_fmap {E} (strs : E → list string) (l : list E) out :
  out ∈ mjoin (strs <$> l) ↔ ∃ edit, edit ∈ l ∧ out ∈ strs edit.
Proof.
  rewrite list_elem_of_join. split.
  - intros (? & Hout & (edit & -> & Hin)%list_elem_of_fmap). eauto.
  - intros (edit & Hin & Hout). exists (strs edit). split; [done |].
    apply list_elem_of_fmap. eauto.
Qed.

(** No operation lengthens a string beyond 15 characters. *)
Lemma apply_length op s strs out :
  apply op s = Some strs → out ∈ strs → String.length s ≤ 15 →
  String.length out ≤ 15.
Proof.
  intros Happ Hout Hs.
  destruct op as [cases max|cases max|cases max|cases max|cases|cases].
  - rewrite apply_SubOp in Happ. simplify_eq.
    apply elem_of_mjoin_fmap in Hout as (edit & _ & Hout).
    by rewrite (sub_strs_length _ _ _ Hout).
  - destruct (apply_TraOp cases max s) as (sites & _ & Heq).
    rewrite Heq in Happ. simplify_eq.
    apply elem_of_mjoin_fmap in Hout as (ps & _ & ->%list_elem_of_singleton).
    by rewrite swap_strs_length.
  - rewrite apply_InsOp in Happ. simplify_eq.
    apply elem_of_mjoin_fmap in Hout as (edit & _ & Hout).
    by eapply ins_strs_length.
  - rewrite apply_DelOp in Happ. simplify_eq.
    apply elem_of_mjoin_fmap in Hout as (ps & _ & Hout).
    etrans; [by eapply del_generate_length | done].
  - simpl in Happ. simplify_eq. by eapply pre_apply_length.
  - simpl in Happ. simplify_eq. by eapply suf_apply_length.
Qed.
End lengths.

(** ** The profile engine *)

Section engine.
Implicit Types (users temp strs pool : list string) (op : EditOp).

Lemma stage_elem_of users temp user1 v :
  v ∈ users ++ stage users temp user1 ↔ v ∈ users ++ temp ∨ v = user1.
Proof.
  unfold stage. case_decide as Hin.
  - split; [by left |]. by intros [? | ->].
  - rewrite (assoc_L (++)), elem_of_app, list_elem_of_singleton. done.
Qed.

Lemma stage_NoDup users temp user1 :
  NoDup (users ++ temp) → NoDup (users ++ stage users temp user1).
Proof.
  intros Hnd. unfold stage. case_decide as Hin; [done |].
  rewrite (assoc_L (++)). apply NoDup_app. split; [done |].
  split; [| apply NoDup_singleton].
  intros v Hv ->%list_elem_of_singleton. done.
Qed.

Lemma stage_prefix users temp user1 : temp `prefix_of` stage users temp user1.
Proof. unfold stage. case_decide; [done | by apply prefix_app_r]. Qed.

Lemma foldl_stage_elem_of users temp strs v :
  v ∈ users ++ foldl (stage users) temp strs ↔ v ∈ users ++ temp ∨ v ∈ strs.
Proof.
  revert temp. induction strs as [|user1 strs IH]; intros temp; simpl.
  - rewrite elem_of_nil. split; [by left | by intros [? | []]].
  - rewrite IH, stage_elem_of, elem_of_cons. tauto.
Qed.

Lemma foldl_stage_NoDup users temp strs :
  NoDup (users ++ temp) → NoDup (users ++ foldl (stage users) temp strs).
Proof.
  revert temp. induction strs as [|user1 strs IH]; intros temp Hnd; [done |].
  simpl. by apply IH, stage_NoDup.
Qed.

Lemma foldl_stage_prefix users temp strs :
  temp `prefix_of` foldl (stage users) temp strs.
Proof.
  revert temp. induction strs as [|user1 strs IH]; intros temp; [done |].
  simpl. etrans; [apply stage_prefix | apply IH].
Qed.

(** The pass of one operation over [todo]: it never raises, keeps what
    was staged, and stages exactly the new outputs. *)
Lemma expand_users_Some op users temp todo :
  ∃ temp', expand_users op users temp todo = Some temp' ∧
    temp `prefix_of` temp' ∧
    (NoDup (users ++ temp) → NoDup (users ++ temp')) ∧
    ∀ v, v ∈ users ++ temp' ↔
         v ∈ users ++ temp ∨
         ∃ user strs, user ∈ todo ∧ apply op user = Some strs ∧ v ∈ strs.
Proof.
  revert temp. induction todo as [|user todo IH]; intros temp.
  - exists temp. split; [done |]. split; [done |]. split; [done |].
    intros v. split; [by left |]. intros [? | (? & ? & []%elem_of_nil & _)]. done.
  - destruct (apply_is_Some op user) as [strs Hstrs].
    destruct (IH (foldl (stage users) temp strs))
      as (temp' & Htemp' & Hpre & Hnd & Hin).
    exists temp'. split; [| split; [| split]].
    + simpl. unfold expand_user. rewrite Hstrs. simpl. done.
    + etrans; [apply foldl_stage_prefix | done].
    + intros ?. by apply Hnd, foldl_stage_NoDup.
    + intros v. rewrite Hin, foldl_stage_elem_of. split.
      * intros [[? | ?] | (user' & strs' & ? & ? & ?)].
        -- by left.
        -- right. exists user, strs. split; [by left | done].
        -- right. exists user', strs'. split; [by right | done].
      * intros [? | (user' & strs' & [-> | ?]%elem_of_cons & ? & ?)].
        -- by left; left.
        -- left; right. by simplify_eq.
        -- right. by exists user', strs'.
Qed.

Lemma expand_op_Some users op :
  ∃ temp, expand_op users op = Some (users ++ temp) ∧
    (NoDup users → NoDup (users ++ temp)) ∧
    ∀ v, v ∈ users ++ temp ↔
         v ∈ users ∨
         ∃ user strs, user ∈ users ∧ apply op user = Some strs ∧ v ∈ strs.
Proof.
  destruct (expand_users_Some op users [] users) as (temp & Ht & _ & Hnd & Hin).
  exists temp. unfold expand_op. rewrite Ht. split; [done |].
  rewrite app_nil_r in Hnd. split; [done |].
  intros v. rewrite Hin, app_nil_r. done.
Qed.

Lemma expand_profile_Some users profile :
  ∃ new, expand_profile users profile = Some (users ++ new) ∧
    (NoDup users → NoDup (users ++ new)).
Proof.
  revert users. induction profile as [|op profile IH]; intros users.
  - exists []. rewrite app_nil_r. done.
  - destruct (expand_op_Some users op) as (temp & Ht & Hnd & _).
    destruct (IH (users ++ temp)) as (new & Hnew & Hnd').
    exists (temp ++ new). simpl. rewrite Ht. simpl.
    rewrite (assoc_L (++)). split; [done |]. intros ?. by apply Hnd', Hnd.
Qed.

Lemma expand_profile_app users profile1 profile2 :
  expand_profile users (profile1 ++ profile2)
  = (users' ← expand_profile users profile1; expand_profile users' profile2).
Proof.
  revert users. induction profile1 as [|op profile1 IH]; intros users; [done |].
  simpl. destruct (expand_op users op) as [users'|]; simpl; [apply IH | done].
Qed.

Lemma list_remove_head x l : list_remove x (x :: l) = Some l.
Proof. simpl. by rewrite decide_True. Qed.

(** [generate_users] returns the pool without its head, the target. *)
Lemma generate_users_Some target profile :
  ∃ users, expand_profile [target] profile = Some (target :: users) ∧
    generate_users target profile = Some users ∧
    (target ∉ users) ∧ NoDup users.
Proof.
  destruct (expand_profile_Some [target] profile) as (new & Hnew & Hnd).
  exists new. unfold generate_users. rewrite Hnew. simpl.
  rewrite decide_True by done.
  specialize (Hnd (NoDup_singleton _)). simpl in Hnd.
  by apply NoDup_cons in Hnd as [? ?].
Qed.
End engine.

(** ** Reachable pool states *)

Section pool.
Context (target : string) (profile : list EditOp).
Implicit Types (users temp strs : list string) (op : EditOp).

Lemma pool_state_NoDup users temp :
  pool_state target profile users temp → NoDup (users ++ temp).
Proof.
  induction 1 as [|users temp op user strs user1 _ IH _ _ _ _|users temp _ IH].
  - apply NoDup_singleton.
  - by apply stage_NoDup.
  - by rewrite app_nil_r.
Qed.

Lemma pool_state_target users temp :
  pool_state target profile users temp → ∃ users', users = target :: users'.
Proof.
  induction 1 as [| |users temp _ [users' ->]]; [by exists [] | done |].
  by exists (users' ++ temp).
Qed.

Lemma pool_state_foldl users temp op user strs strs' :
  pool_state target profile users temp →
  op ∈ profile → user ∈ users → apply op user = Some strs →
  strs' ⊆ strs →
  pool_state target profile users (foldl (stage users) temp strs').
Proof.
  intros Hst Hop Huser Happ. revert temp Hst.
  induction strs' as [|user1 strs' IH]; intros temp Hst Hsub; [done |].
  simpl. apply IH.
  - eapply pool_stage; [done..|]. apply Hsub. by left.
  - intros v Hv. apply Hsub. by right.
Qed.

Lemma pool_state_expand_users op users temp todo temp' :
  pool_state target profile users temp →
  op ∈ profile → todo ⊆ users →
  expand_users op users temp todo = Some temp' →
  pool_state target profile users temp'.
Proof.
  intros Hst Hop. revert temp Hst.
  induction todo as [|user todo IH]; intros temp Hst Hsub Hexp.
  - by simplify_eq/=.
  - simpl in Hexp. unfold expand_user in Hexp.
    destruct (apply op user) as [strs|] eqn:Hstrs; simplify_eq/=.
    eapply IH; [| | done].
    + eapply pool_state_foldl; [done | done | | done | done].
      apply Hsub. by left.
    + intros v Hv. apply Hsub. by right.
Qed.

Lemma pool_state_expand_profile users ops users' :
  pool_state target profile users [] → ops ⊆ profile →
  expand_profile users ops = Some users' →
  pool_state target profile users' [].
Proof.
  revert users. induction ops as [|op ops IH]; intros users Hst Hsub Hexp.
  - by simplify_eq/=.
  - simpl in Hexp. unfold expand_op in Hexp.
    destruct (expand_users op users [] users) as [temp|] eqn:Htemp;
      simplify_eq/=.
    eapply IH; [| | done].
    + apply pool_extend. eapply pool_state_expand_users; [done | | | done].
      * apply Hsub. by left.
      * done.
    + intros v Hv. apply Hsub. by right.
Qed.
End pool.

(** ** Properties of the profile engine *)

Section engine_properties.
Implicit Types (users temp strs : list string) (op : EditOp).

(** A property of strings that every operation preserves holds of the
    whole pool. *)
Lemma expand_profile_Forall (P : string → Prop) users profile users' :
  (∀ op s strs out, P s → apply op s = Some strs → out ∈ strs → P out) →
  Forall P users → expand_profile users profile = Some users' →
  Forall P users'.
Proof.
  intros HP. revert users.
  induction profile as [|op profile IH]; intros users Hall Hexp.
  - by simplify_eq/=.
  - simpl in Hexp.
    destruct (expand_op_Some users op) as (temp & Ht & _ & Hin).
    rewrite Ht in Hexp. simpl in Hexp. eapply IH; [| done].
    apply Forall_forall. intros v [Hv | (user & strs & Hu & Happ & Hv)]%Hin.
    + by eapply Forall_forall in Hall.
    + eapply HP; [| done | done]. by eapply Forall_forall in Hall.
Qed.
End engine_properties.

(** C1. For every base string and every profile, [generate_users] returns
    a sequence that does not contain the base string and has no duplicate;
    the pool it returns is a reachable state of the expansion, and in every
    reachable state the pool together with the staged strings holds no
    repeated string. *)
Theorem generate_users_unique (target : string) (profile : list EditOp) :
  ∃ users, generate_users target profile = Some users ∧
    (target ∉ users) ∧ NoDup users ∧
    pool_state target profile (target :: users) [] ∧
    ∀ pool temp, pool_state target profile pool temp → NoDup (pool ++ temp).
Proof.
  destruct (generate_users_Some target profile) as (users & Hexp & Hgen & Hni & Hnd).
  exists users. split; [done |]. split; [done |]. split; [done |]. split.
  - eapply pool_state_expand_profile; [apply pool_init | done | done].
  - apply pool_state_NoDup.
Qed.

Lemma generate_users_unique_witness :
  NoDup (["root"%string] ++ stage ["root"%string] [] "r0ot").
Proof.
  destruct (generate_users_unique "root" [SubOp o_to_0 1])
    as (_ & _ & _ & _ & _ & Hinv).
  apply Hinv.
  apply (pool_stage "root" [SubOp o_to_0 1] ["root"%string] []
           (SubOp o_to_0 1) "root" ["r0ot"; "ro0t"]%string "r0ot").
  - apply pool_init.
  - apply list_elem_of_here.
  - apply list_elem_of_here.
  - by vm_compute.
  - apply list_elem_of_here.
Defined.

(** C2. For a base string of at most 15 characters and every profile,
    every string returned by [generate_users] has at most 15 characters;
    and on any input the outputs of Insertion, Prefix and Suffix are the
    candidate strings of at most 15 characters, the longer ones being
    dropped. *)
Theorem generate_users_length (target : string) (profile : list EditOp) :
  String.length target ≤ 15 →
  (∃ users, generate_users target profile = Some users ∧
     Forall (λ user, String.length user ≤ 15) users) ∧
  (∀ cases max s, ∃ strs, apply (InsOp cases max) s = Some strs ∧
     Forall (λ out, String.length out ≤ 15) strs) ∧
  (∀ cases s out,
     (∃ strs, apply (PreOp cases) s = Some strs ∧ out ∈ strs) ↔
     (∃ string1, string1 ∈ cases ∧ out = string1 +:+ s) ∧
     String.length out ≤ 15) ∧
  (∀ cases s out,
     (∃ strs, apply (SufOp cases) s = Some strs ∧ out ∈ strs) ↔
     (∃ string1, string1 ∈ cases ∧ out = s +:+ string1) ∧
     String.length out ≤ 15).
Proof.
  intros Hlen. split; [| split; [| split]].
  - destruct (generate_users_Some target profile) as (users & Hexp & Hgen & _).
    exists users. split; [done |].
    eapply (expand_profile_Forall (λ user, String.length user ≤ 15)) in Hexp.
    + by apply Forall_cons in Hexp as [_ ?].
    + intros op s strs out ? ? ?. by eapply apply_length.
    + by apply Forall_singleton.
  - intros cases max s. rewrite apply_InsOp. eexists. split; [done |].
    apply Forall_forall. intros out (edit & _ & Hout)%elem_of_mjoin_fmap.
    by eapply ins_strs_length.
  - intros cases s out. simpl. unfold pre_apply. split.
    + intros (strs & [= <-] & [? (string1 & -> & ?)%list_elem_of_fmap]%list_elem_of_filter).
      split; [by exists string1 | done].
    + intros [(string1 & ? & ->) ?]. eexists. split; [done |].
      apply list_elem_of_filter. split; [done |].
      apply list_elem_of_fmap. by exists string1.
  - intros cases s out. simpl. unfold suf_apply. split.
    + intros (strs & [= <-] & [? (string1 & -> & ?)%list_elem_of_fmap]%list_elem_of_filter).
      split; [by exists string1 | done].
    + intros [(string1 & ? & ->) ?]. eexists. split; [done |].
      apply list_elem_of_filter. split; [done |].
      apply list_elem_of_fmap. by exists string1.
Qed.

Lemma generate_users_length_witness :
  ∃ users,
    generate_users "root" [SubOp o_to_0 2; InsOp o_to_0 1; SufOp ["1"%string]]
    = Some users ∧
    Forall (λ user, String.length user ≤ 15) users.
Proof.
  apply (generate_users_length "root"
           [SubOp o_to_0 2; InsOp o_to_0 1; SufOp ["1"%string]]).
  simpl. lia.
Defined.

(** C3. The profile engine composes cumulatively: the operation that
    follows a profile is applied to the base string and to every candidate
    the profile generated, its new outputs are appended after them, and
    the operations after it keep what it produced.  For the profile
    [Substitution o -> 0 (max 1); Suffix "1"] on "root" the result includes
    "r0ot1" and "ro0t1". *)
Theorem generate_users_cumulative :
  (∀ target profile op,
     ∃ users users',
       generate_users target profile = Some users ∧
       generate_users target (profile ++ [op]) = Some users' ∧
       users `prefix_of` users' ∧
       (∀ v, v ∈ users' ↔
             v ≠ target ∧
             (v ∈ users ∨
              ∃ user strs, user ∈ target :: users ∧
                           apply op user = Some strs ∧ v ∈ strs)) ∧
       ∀ rest, ∃ final,
         generate_users target (profile ++ op :: rest) = Some final ∧
         users' `prefix_of` final) ∧
  ∃ users,
    generate_users "root" [SubOp o_to_0 1; SufOp ["1"%string]] = Some users ∧
    "r0ot1"%string ∈ users ∧ "ro0t1"%string ∈ users.
Proof.
  split.
  - intros target profile op.
    destruct (generate_users_Some target profile) as (users & Hexp & Hgen & Hni & Hnd).
    destruct (expand_op_Some (target :: users) op) as (temp & Ht & Hnd' & Hin).
    assert (expand_profile [target] (profile ++ [op])
            = Some (target :: users ++ temp)) as Hexp'.
    { rewrite expand_profile_app, Hexp. simpl. by rewrite Ht. }
    exists users, (users ++ temp).
    split; [done |]. split; [| split; [| split]].
    + unfold generate_users. rewrite Hexp'. simpl. by rewrite decide_True.
    + by apply prefix_app_r.
    + assert (NoDup (target :: users ++ temp)) as Hnd''.
      { apply Hnd'. by apply NoDup_cons. }
      apply NoDup_cons in Hnd'' as [Hni' _].
      intros v. specialize (Hin v). simpl in Hin. split.
      * intros Hv. assert (v ≠ target) as Hne by by intros ->.
        split; [done |].
        destruct Hin as [Hin _].
        destruct Hin as [[? | ?]%elem_of_cons | ?]; [by right | done | by left | by right].
      * intros [Hne [Hv | Hv]]; [apply elem_of_app; by left |].
        destruct Hin as [_ Hin].
        by pose proof (Hin (or_intror Hv)) as [? | ?]%elem_of_cons.
    + intros rest.
      destruct (expand_profile_Some (target :: users ++ temp) rest)
        as (new & Hnew & _).
      exists ((users ++ temp) ++ new). split; [| by apply prefix_app_r].
      unfold generate_users.
      replace (profile ++ op :: rest) with ((profile ++ [op]) ++ rest)
        by by rewrite <-(assoc_L (++)).
      rewrite expand_profile_app, Hexp'. simpl.
      rewrite Hnew. simpl. by rewrite decide_True.
  - eexists. split; [by vm_compute |].
    split; apply list_elem_of_In; simpl; tauto.
Qed.

(** ** Insertion *)

Section insertion.
Implicit Types (chars : list ascii) (choice : list (nat * ascii)).

Lemma join_app chars1 chars2 : join (chars1 ++ chars2) = join chars1 +:+ join chars2.
Proof. induction chars1 as [|c chars1 IH]; simpl; [done | by rewrite IH]. Qed.

Lemma append_all_snoc (strs : list string) choice px :
  append_all strs (choice ++ [px])
  = alter (λ old, old +:+ String px.2 "") px.1 (append_all strs choice).
Proof. unfold append_all. by rewrite foldl_snoc. Qed.

(** The buffer of [InsOp.generate] after the updates of [choice]: every
    cell holds its character followed by the characters appended to it. *)
Lemma append_all_cells chars choice :
  append_all ((λ c, String c "") <$> chars) choice
  = (λ ic, String ic.2 (join (filter (λ px, px.1 = ic.1) choice).*2))
      <$> enumerate chars.
Proof.
  induction choice as [|[p x] choice IH] using rev_ind.
  - simpl. unfold enumerate.
    rewrite <-(fmap_snd_enumerate_from 0 chars) at 1.
    by rewrite <-list_fmap_compose.
  - rewrite append_all_snoc, IH. simpl. apply list_eq. intros j.
    unfold enumerate. destruct (decide (j = p)) as [-> | Hne].
    + rewrite list_lookup_alter_eq, !list_lookup_fmap, lookup_enumerate_from.
      destruct (chars !! p) as [c|]; simpl; [| done].
      rewrite filter_app, fmap_app, join_app, filter_cons_True by done.
      done.
    + rewrite list_lookup_alter_ne by done.
      rewrite !list_lookup_fmap, lookup_enumerate_from.
      destruct (chars !! j) as [c|]; simpl; [| done].
      rewrite filter_app, filter_cons_False by (simpl; congruence).
      by rewrite filter_nil, app_nil_r.
Qed.

Lemma join_strs_cells {A} (l : list A) (head : A → ascii) (tail : A → list ascii) :
  join_strs ((λ x, String (head x) (join (tail x))) <$> l)
  = join (x ← l; head x :: tail x).
Proof.
  induction l as [|x l IH]; [done |].
  rewrite fmap_cons, bind_cons. change (?y :: ?k ++ ?r) with ((y :: k) ++ r).
  rewrite join_app, <-IH. done.
Qed.

Lemma ins_strs_insert_after s edit :
  ins_strs s edit
  = filter (λ out, String.length out ≤ 15)
      ((λ ed, join (insert_after (chars_of s) (zip edit.*1 ed)))
         <$> product (edit.*2)).
Proof.
  unfold ins_strs. f_equal. apply list_fmap_ext. intros _ ed _.
  rewrite append_all_cells. unfold insert_after.
  apply (join_strs_cells _ snd (λ ic, (filter (λ px, px.1 = ic.1) _).*2)).
Qed.

Lemma length_insert_cells n chars px choice :
  length (enumerate_from n chars ≫=
            λ ic, ic.2 :: (filter (λ qx, qx.1 = ic.1) (px :: choice)).*2)
  = length (enumerate_from n chars ≫=
              λ ic, ic.2 :: (filter (λ qx, qx.1 = ic.1) choice).*2)
    + (if decide (n ≤ px.1 < n + length chars) then 1 else 0).
Proof.
  revert n. induction chars as [|c chars IH]; intros n.
  { simpl. rewrite decide_False by lia. done. }
  cbn [enumerate_from]. rewrite !bind_cons, !length_app, IH.
  cbn [length fst snd]. rewrite filter_cons. cbn [fst].
  destruct (decide (px.1 = n)) as [-> | Hne].
  - rewrite decide_False by lia. rewrite decide_True by lia.
    rewrite fmap_cons. simpl. lia.
  - destruct (decide (S n ≤ px.1 < S n + length chars)).
    + rewrite decide_True by lia. lia.
    + rewrite decide_False by lia. lia.
Qed.

(** Appending keeps every character of the input: with positions in
    range the result is longer by the number of insertions. *)
Lemma length_insert_after chars choice :
  Forall (λ px, px.1 < length chars) choice →
  length (insert_after chars choice) = length chars + length choice.
Proof.
  unfold insert_after, enumerate.
  induction 1 as [|px choice Hpx _ IH].
  - generalize 0. induction chars as [|c chars IH]; intros n; [done |].
    cbn [enumerate_from]. rewrite bind_cons, filter_nil. simpl.
    by rewrite IH.
  - rewrite length_insert_cells, IH, decide_True by lia. simpl. lia.
Qed.
End insertion.

(** C4 as the code has it. Insertion with case map o -> 0 and max = 1 on
    "root" produces exactly "ro0ot" and "roo0t": the 0 follows the o it is
    attached to.  Each output is one character longer than the input and
    keeps the characters of the input, in order. *)
Theorem ins_root_outputs :
  apply (InsOp o_to_0 1) "root" = Some ["ro0ot"; "roo0t"]%string ∧
  Forall (λ out, String.length out = S (String.length "root") ∧
                 chars_of "root" `sublist_of` chars_of out)
         ["ro0ot"; "roo0t"]%string.
Proof.
  split; [by vm_compute |].
  repeat apply Forall_cons_2; [| | apply Forall_nil_2].
  - split; [done |]. simpl.
    repeat first [apply sublist_skip | apply sublist_cons | apply sublist_nil].
  - split; [done |]. simpl.
    repeat first [apply sublist_skip | apply sublist_cons | apply sublist_nil].
Qed.

(** C4 as the specification states it fails: the outputs of Insertion with
    case map o -> 0 and max = 1 on "root" are not the set
    {"r0oot", "ro0ot"}; "r0oot" is not produced. *)
Lemma ins_root_not_before :
  ¬ ∃ strs, apply (InsOp o_to_0 1) "root" = Some strs ∧
      ∀ out, out ∈ strs ↔ out ∈ ["r0oot"; "ro0ot"]%string.
Proof.
  intros (strs & Happ & Hset).
  assert (apply (InsOp o_to_0 1) "root" = Some ["ro0ot"; "roo0t"]%string)
    as Heq by by vm_compute.
  rewrite Heq in Happ. simplify_eq.
  assert ("r0oot"%string ∈ ["ro0ot"; "roo0t"]%string) as Hin
    by (apply Hset; left).
  apply list_elem_of_In in Hin. simpl in Hin.
  destruct Hin as [? | [? | []]]; discriminate.
Qed.

Lemma length_bind_const {A B} (f : A → list B) (l : list A) k :
  (∀ x, x ∈ l → length (f x) = k) → length (l ≫= f) = length l * k.
Proof.
  induction l as [|x l IH]; intros Hk; [done |].
  rewrite bind_cons, length_app, IH by (intros y Hy; apply Hk; by right).
  rewrite Hk by left. simpl. lia.
Qed.

(** The Cartesian product has one tuple for every way of choosing one
    element in each list, repeated choices counted. *)
Lemma length_product {A} (ls : list (list A)) :
  length (product ls) = foldr (λ l n, length l * n) 1 ls.
Proof.
  induction ls as [|l ls IH]; [done |].
  simpl. rewrite (length_bind_const _ _ (length (product ls))).
  - by rewrite IH.
  - intros x _. by rewrite length_map.
Qed.

(** C5. For every input string and every combination of insertion sites,
    [InsOp.generate] returns, for the tuples of the Cartesian product of
    the sites' insertion-character sets in order, the input with each
    chosen character appended after the existing character at its site,
    without the results longer than 15 characters.  The tuples are all
    the ways of choosing one insertion character at every site of the
    combination, as many as the product of the sizes of the sets, the last
    site varying fastest; so a string is returned exactly when it has at
    most 15 characters and is the input with such a choice inserted.  The
    insertion characters of a site are those the case map gives for the
    character at its position, and before the filter every result is
    longer than the input by the size of the combination. *)
Theorem ins_generate_product :
  (∀ (cases : gmap ascii (list ascii)) (s : string) (r : nat)
     (edit : list site),
     edit ∈ combinations r (ins_edits cases s) →
     ins_generate s edit
     = Some (filter (λ out, String.length out ≤ 15)
               ((λ ed, join (insert_after (chars_of s) (zip edit.*1 ed)))
                  <$> product (edit.*2))) ∧
     Forall (λ e, ∃ c, chars_of s !! e.1 = Some c ∧ cases !! c = Some e.2)
            edit ∧
     (∀ ed, ed ∈ product (edit.*2) →
        String.length (join (insert_after (chars_of s) (zip edit.*1 ed)))
        = String.length s + r) ∧
     (∀ ed, ed ∈ product (edit.*2) ↔ Forall2 (λ x e, x ∈ e.2) ed edit) ∧
     length (product (edit.*2)) = foldr (λ e n, length e.2 * n) 1 edit ∧
     ∃ strs, ins_generate s edit = Some strs ∧
       ∀ out, out ∈ strs ↔
         ∃ ed, Forall2 (λ x e, x ∈ e.2) ed edit ∧
               out = join (insert_after (chars_of s) (zip edit.*1 ed)) ∧
               String.length out ≤ 15) ∧
  ins_generate "root" [(1, ["0"; "1"]%char); (2, ["x"; "y"]%char)]
  = Some ["ro0oxt"; "ro0oyt"; "ro1oxt"; "ro1oyt"]%string ∧
  ins_generate "root" [(1, ["0"]%char); (2, ["0"]%char)]
  = Some ["ro0o0t"%string] ∧
  apply (InsOp o_to_0 2) "root" = Some ["ro0ot"; "roo0t"; "ro0o0t"]%string ∧
  apply (InsOp o_to_0 1) "ooooooooooooooo" = Some [] ∧
  length <$> apply (InsOp o_to_0 2) "oooooooooooooo" = Some 14.
Proof.
  split; [| by vm_compute].
  intros cases s r edit [Hsub Hlen]%combinations_sublist.
  destruct (sublist_sites_range _ _ _ (sub_edits_sublist cases s) Hsub)
    as [Hps Hrange].
  assert (Htuples : ∀ ed,
    ed ∈ product (edit.*2) ↔ Forall2 (λ x e, x ∈ e.2) ed edit).
  { intros ed. by rewrite product_Forall2, Forall2_fmap_r. }
  assert (Hgen : ins_generate s edit
    = Some (filter (λ out, String.length out ≤ 15)
              ((λ ed, join (insert_after (chars_of s) (zip edit.*1 ed)))
                 <$> product (edit.*2)))).
  { rewrite ins_generate_Some by done. by rewrite ins_strs_insert_after. }
  split; [done |]. split; [| split; [| split; [done | split]]].
  - apply Forall_forall. intros [i reps] He. apply elem_of_sub_edits.
    by eapply elem_of_sublist.
  - intros ed Hed%product_length. rewrite length_fmap in Hed.
    rewrite length_join, length_insert_after.
    + rewrite length_zip, length_fmap, length_chars_of. lia.
    + apply Forall_forall. intros [p x] Hpx.
      assert (p ∈ edit.*1) as Hp.
      { apply (list_elem_of_fmap_2 fst) in Hpx.
        by rewrite fst_zip in Hpx by (rewrite length_fmap; lia). }
      apply sublist_seq_lt in Hps. rewrite Forall_forall in Hps.
      simpl. rewrite length_chars_of. by apply Hps.
  - by rewrite length_product, foldr_fmap.
  - eexists. split; [exact Hgen |]. intros out.
    rewrite list_elem_of_filter, list_elem_of_fmap. split.
    + intros [H15 (ed & -> & Hed%Htuples)]. by exists ed.
    + intros (ed & Hed%Htuples & -> & H15). split; [done |]. by exists ed.
Qed.

Lemma ins_generate_product_witness :
  ins_generate "root" [(1, ["0"%char])]
  = Some (filter (λ out, String.length out ≤ 15)
            ((λ ed, join (insert_after (chars_of "root")
                            (zip [(1, ["0"%char])].*1 ed)))
               <$> product ([(1, ["0"%char])].*2))).
Proof.
  refine (proj1 (proj1 ins_generate_product o_to_0 "root" 1
                   [(1, ["0"%char])] _)).
  vm_compute. apply list_elem_of_here.
Defined.

(** ** Substitution *)

Section substitution.
Implicit Types (chars : list ascii) (choice : list (nat * ascii)).

Lemma lookup_assign_all_notin chars choice p :
  p ∉ choice.*1 → assign_all chars choice !! p = chars !! p.
Proof.
  revert chars. induction choice as [|[q x] choice IH]; intros chars Hp; [done |].
  rewrite fmap_cons, not_elem_of_cons in Hp. destruct Hp as [Hne Hp].
  simpl. rewrite IH by done. by rewrite list_lookup_insert_ne.
Qed.

Lemma lookup_assign_all_in chars choice p x :
  NoDup choice.*1 → (p, x) ∈ choice → p < length chars →
  assign_all chars choice !! p = Some x.
Proof.
  revert chars. induction choice as [|[q y] choice IH]; intros chars Hnd Hin Hp.
  { by apply elem_of_nil in Hin. }
  rewrite fmap_cons in Hnd. apply NoDup_cons in Hnd as [Hq Hnd].
  apply elem_of_cons in Hin as [[= <- <-] | Hin]; simpl.
  - rewrite lookup_assign_all_notin by done.
    by apply list_lookup_insert_eq.
  - apply IH; [done | done |]. by rewrite length_insert.
Qed.
End substitution.

(** C7. For every input string and every combination of substitution
    sites, [SubOp.generate] returns one string for each tuple of the
    Cartesian product of the sites' replacement sets, in order: it has the
    length of the input, carries the tuple's characters at the positions
    of the combination and the input's characters everywhere else.  With
    case map o -> 0 on "root", max = 1 yields "r0ot" and "ro0t", and
    max = 2 additionally "r00t". *)
Theorem sub_generate_product :
  (∀ (cases : gmap ascii (list ascii)) (s : string) (r : nat) (edit : list site),
     edit ∈ combinations r (sub_edits cases s) →
     Forall (λ e, ∃ c, chars_of s !! e.1 = Some c ∧ cases !! c = Some e.2) edit ∧
     ∃ strs, sub_generate s edit = Some strs ∧
       Forall2 (λ ed out,
                  String.length out = String.length s ∧
                  (∀ j e x, edit !! j = Some e → ed !! j = Some x →
                            chars_of out !! e.1 = Some x) ∧
                  (∀ p, p ∉ edit.*1 → chars_of out !! p = chars_of s !! p))
               (product (edit.*2)) strs) ∧
  apply (SubOp o_to_0 1) "root" = Some ["r0ot"; "ro0t"]%string ∧
  apply (SubOp o_to_0 2) "root" = Some ["r0ot"; "ro0t"; "r00t"]%string.
Proof.
  split; [| by vm_compute].
  intros cases s r edit [Hsub Hlen]%combinations_sublist.
  destruct (sublist_sites_range _ _ _ (sub_edits_sublist cases s) Hsub)
    as [Hps Hrange].
  split.
  { apply Forall_forall. intros [i reps] He. apply elem_of_sub_edits.
    by eapply elem_of_sublist. }
  exists (sub_strs s edit). split; [by apply sub_generate_Some |].
  unfold sub_strs. apply Forall2_fmap_r, Forall_Forall2_diag, Forall_forall.
  intros ed Hed%product_length. rewrite length_fmap in Hed.
  unfold compose. rewrite chars_of_join. split; [| split].
  - by rewrite length_join, length_assign_all, length_chars_of.
  - intros j [p reps] x He Hx. simpl. apply lookup_assign_all_in.
    + rewrite fst_zip by (rewrite length_fmap; lia).
      by eapply sublist_seq_NoDup.
    + apply list_elem_of_lookup. exists j.
      rewrite lookup_zip_with, list_lookup_fmap, He, Hx. done.
    + rewrite length_chars_of. rewrite Forall_forall in Hrange.
      eapply (Hrange (p, reps)), list_elem_of_lookup_2, He.
  - intros p Hp. apply lookup_assign_all_notin.
    by rewrite fst_zip by (rewrite length_fmap; lia).
Qed.

Lemma sub_generate_product_witness :
  ∃ strs, sub_generate "root" [(1, ["0"%char]); (2, ["0"%char])] = Some strs ∧
    Forall2 (λ ed out,
               String.length out = String.length "root" ∧
               (∀ j e x, [(1, ["0"%char]); (2, ["0"%char])] !! j = Some e →
                         ed !! j = Some x → chars_of out !! e.1 = Some x) ∧
               (∀ p, p ∉ [(1, ["0"%char]); (2, ["0"%char])].*1 →
                     chars_of out !! p = chars_of "root" !! p))
            (product ([(1, ["0"%char]); (2, ["0"%char])].*2)) strs.
Proof.
  refine (proj2 (proj1 sub_generate_product o_to_0 "root" 2
                   [(1, ["0"%char]); (2, ["0"%char])] _)).
  vm_compute. apply list_elem_of_here.
Defined.

(** C8. For every input string and every combination of deletion sites,
    [DelOp.generate] removes the positions of the combination, every one
    naming a character of the input that belongs to the delete set; a
    combination whose removal leaves nothing, that is one that takes every
    position of the input, yields no output.  With delete set {o} on "oo",
    max = 1 and max = 2 both give the outputs "o", "o", hence the
    candidate set {"o"}: the combination of both sites is dropped. *)
Theorem del_generate_simultaneous :
  (∀ (cases : list ascii) (s : string) (r : nat) (edit : list nat),
     edit ∈ combinations r (del_edits cases s) →
     Forall (λ i, ∃ c, chars_of s !! i = Some c ∧ c ∈ cases) edit ∧
     del_generate s edit
     = (if decide (remove_positions (chars_of s) edit = []) then []
        else [join (remove_positions (chars_of s) edit)]) ∧
     String.length (join (remove_positions (chars_of s) edit))
     = String.length s - r ∧
     (remove_positions (chars_of s) edit = [] ↔ r = String.length s)) ∧
  apply (DelOp ["o"%char] 1) "oo" = Some ["o"; "o"]%string ∧
  apply (DelOp ["o"%char] 2) "oo" = Some ["o"; "o"]%string ∧
  del_generate "oo" [0; 1] = [] ∧
  generate_users "oo" [DelOp ["o"%char] 1] = Some ["o"%string] ∧
  generate_users "oo" [DelOp ["o"%char] 2] = Some ["o"%string].
Proof.
  split; [| by vm_compute].
  intros cases s r edit [Hsub Hlen]%combinations_sublist.
  assert (edit `sublist_of` seq 0 (String.length s)) as Hps
    by (etrans; [done | apply del_edits_sublist]).
  assert (length (remove_positions (chars_of s) edit) = String.length s - r)
    as Hrem.
  { rewrite length_remove_positions by by rewrite length_chars_of.
    by rewrite length_chars_of, Hlen. }
  pose proof (sublist_seq_length _ _ _ Hps) as Hle.
  split; [| split; [| split]].
  - apply Forall_forall. intros i Hi. apply elem_of_del_edits.
    by eapply elem_of_sublist.
  - rewrite del_generate_remove by done.
    destruct (remove_positions (chars_of s) edit) as [|c chars];
      simpl in Hrem; repeat case_decide; try done; lia.
  - by rewrite length_join.
  - split.
    + intros Hnil. rewrite Hnil in Hrem. simpl in Hrem. lia.
    + intros ->. apply nil_length_inv. rewrite Hrem. lia.
Qed.

Lemma del_generate_simultaneous_witness :
  del_generate "oo" [0; 1]
  = if decide (remove_positions (chars_of "oo") [0; 1] = []) then []
    else [join (remove_positions (chars_of "oo") [0; 1])].
Proof.
  refine (proj1 (proj2 (proj1 del_generate_simultaneous ["o"%char] "oo" 2 [0; 1] _))).
  vm_compute. apply list_elem_of_here.
Defined.

(** ** Degenerate inputs *)

Section degenerate.
Implicit Types (s : string) (op : EditOp).

Lemma sub_edits_empty s : sub_edits ∅ s = [].
Proof.
  unfold sub_edits, enumerate. generalize 0.
  induction (chars_of s) as [|c chars IH]; intros n; [done |].
  simpl. rewrite lookup_empty. simpl. apply IH.
Qed.

Lemma del_edits_empty s : del_edits [] s = [].
Proof.
  apply elem_of_nil_inv. intros i (c & _ & []%elem_of_nil)%elem_of_del_edits.
Qed.

Lemma tra_edits_empty s : tra_edits [] s = Some [].
Proof.
  destruct (tra_edits_Some [] s) as (sites & -> & _ & Hin). f_equal.
  apply elem_of_nil_inv. intros i (a & b & _ & _ & []%elem_of_nil)%Hin.
Qed.

Lemma apply_no_sites op s strs :
  apply op s = Some strs → site_count op s = Some 0 → strs = [].
Proof.
  destruct op as [cases max|cases max|cases max|cases max|cases|cases];
    simpl site_count; intros Happ Hcount; [| | | | done | done].
  - rewrite apply_SubOp in Happ. injection Hcount as Hcount.
    apply nil_length_inv in Hcount. rewrite Hcount in Happ.
    rewrite site_combinations_nil in Happ. by simplify_eq/=.
  - destruct (apply_TraOp cases max s) as (sites & Hsites & Heq).
    rewrite Heq in Happ. rewrite Hsites in Hcount.
    injection Hcount as Hcount.
    apply nil_length_inv in Hcount. rewrite Hcount in Happ.
    rewrite site_combinations_nil in Happ. by simplify_eq/=.
  - rewrite apply_InsOp in Happ. injection Hcount as Hcount.
    apply nil_length_inv in Hcount. rewrite Hcount in Happ.
    rewrite site_combinations_nil in Happ. by simplify_eq/=.
  - rewrite apply_DelOp in Happ. injection Hcount as Hcount.
    apply nil_length_inv in Hcount. rewrite Hcount in Happ.
    rewrite site_combinations_nil in Happ. by simplify_eq/=.
Qed.

Lemma apply_empty_table op s strs :
  apply op s = Some strs → empty_table op → strs = [].
Proof.
  destruct op as [cases max|cases max|cases max|cases max|cases|cases];
    simpl empty_table; intros Happ ->.
  - eapply apply_no_sites; [done |]. simpl. by rewrite sub_edits_empty.
  - eapply apply_no_sites; [done |]. simpl. by rewrite tra_edits_empty.
  - eapply apply_no_sites; [done |]. simpl.
    by rewrite ins_edits_sub_edits, sub_edits_empty.
  - eapply apply_no_sites; [done |]. simpl. by rewrite del_edits_empty.
  - by simplify_eq/=.
  - by simplify_eq/=.
Qed.

Lemma apply_saturated op s n k :
  site_count op s = Some n →
  apply (with_max op (n + k)) s = apply (with_max op n) s.
Proof.
  destruct op as [cases max|cases max|cases max|cases max|cases|cases];
    cbn [site_count with_max]; intros Hcount; [| | | | done | done].
  - injection Hcount as <-. rewrite !apply_SubOp.
    by rewrite site_combinations_saturated.
  - destruct (apply_TraOp cases (n + k) s) as (sites & Hsites & ->).
    destruct (apply_TraOp cases n s) as (sites' & Hsites' & ->).
    rewrite Hsites in Hcount, Hsites'.
    injection Hsites' as <-. injection Hcount as <-.
    by rewrite site_combinations_saturated.
  - injection Hcount as <-. rewrite !apply_InsOp.
    by rewrite site_combinations_saturated.
  - injection Hcount as <-. rewrite !apply_DelOp.
    by rewrite site_combinations_saturated.
Qed.
End degenerate.

(** C9. For every operation variant and every input string, [apply]
    returns a sequence of strings and raises no error.  With an empty case
    table, or when the scan finds no edit site, the sequence is empty.  A
    combination size beyond the number of sites has no combination, so a
    bound [max] above the number of sites gives the outputs of the bound
    equal to that number. *)
Theorem apply_never_raises (op : EditOp) (s : string) :
  ∃ strs, apply op s = Some strs ∧
    (empty_table op → strs = []) ∧
    (site_count op s = Some 0 → strs = []) ∧
    (∀ n r, site_count op s = Some n → n < r →
       ∀ E (sites : list E), length sites = n → combinations r sites = []) ∧
    (∀ n k, site_count op s = Some n →
       apply (with_max op (n + k)) s = apply (with_max op n) s).
Proof.
  destruct (apply_is_Some op s) as [strs Hstrs].
  exists strs. split; [done |]. split; [| split; [| split]].
  - by apply (apply_empty_table op s).
  - by apply (apply_no_sites op s).
  - intros n r _ Hr E sites Hlen. apply combinations_gt. lia.
  - intros n k. apply apply_saturated.
Qed.

Lemma apply_never_raises_witness :
  apply (SubOp o_to_0 (0 + 5)) "xyz" = apply (SubOp o_to_0 0) "xyz" ∧
  apply (DelOp [] 3) "abc" = Some [].
Proof.
  split.
  - destruct (apply_never_raises (SubOp o_to_0 5) "xyz") as (_ & _ & _ & _ & _ & Hsat).
    apply (Hsat 0 5). by vm_compute.
  - destruct (apply_never_raises (DelOp [] 3) "abc") as (strs & -> & Hempty & _).
    f_equal. by apply Hempty.
Defined.

(** C10. For every input string, every output of Substitution and of
    Transposition, for each combination of sites and so for [apply], has
    exactly the length of the input; for an input of at most 15
    characters no output of these two kinds is longer than 15. *)
Theorem sub_tra_keep_length (s : string) :
  (∀ cases r edit, edit ∈ combinations r (sub_edits cases s) →
     ∃ strs, sub_generate s edit = Some strs ∧
       Forall (λ out, String.length out = String.length s) strs) ∧
  (∀ cases sites r edit,
     tra_edits cases s = Some sites → edit ∈ combinations r sites →
     ∃ strs, tra_generate s edit = Some strs ∧
       Forall (λ out, String.length out = String.length s) strs) ∧
  (∀ cases max, ∃ strs, apply (SubOp cases max) s = Some strs ∧
     Forall (λ out, String.length out = String.length s) strs) ∧
  (∀ cases max, ∃ strs, apply (TraOp cases max) s = Some strs ∧
     Forall (λ out, String.length out = String.length s) strs) ∧
  (String.length s ≤ 15 →
   (∀ cases max strs, apply (SubOp cases max) s = Some strs →
      Forall (λ out, String.length out ≤ 15) strs) ∧
   (∀ cases max strs, apply (TraOp cases max) s = Some strs →
      Forall (λ out, String.length out ≤ 15) strs)).
Proof.
  assert (Hsub : ∀ cases max, ∃ strs, apply (SubOp cases max) s = Some strs ∧
     Forall (λ out, String.length out = String.length s) strs).
  { intros cases max. rewrite apply_SubOp. eexists. split; [done |].
    apply Forall_forall. intros out (edit & _ & Hout)%elem_of_mjoin_fmap.
    by eapply sub_strs_length. }
  assert (Htra : ∀ cases max, ∃ strs, apply (TraOp cases max) s = Some strs ∧
     Forall (λ out, String.length out = String.length s) strs).
  { intros cases max. destruct (apply_TraOp cases max s) as (sites & _ & ->).
    eexists. split; [done |].
    apply Forall_forall.
    intros out (edit & _ & ->%list_elem_of_singleton)%elem_of_mjoin_fmap.
    apply swap_strs_length. }
  split; [| split; [| split; [| split]]]; [| | done | done |].
  - intros cases r edit [Hsubl _]%combinations_sublist.
    exists (sub_strs s edit). split.
    + apply sub_generate_Some.
      by eapply sublist_sites_range; [apply sub_edits_sublist |].
    + apply Forall_forall. intros out. apply sub_strs_length.
  - intros cases sites r edit Hsites [Hsubl _]%combinations_sublist.
    destruct (tra_edits_Some cases s) as (sites' & Hsites' & Hb & _).
    rewrite Hsites in Hsites'. simplify_eq.
    eexists. split.
    + apply tra_generate_Some.
      assert (edit `sublist_of` seq 0 (String.length s - 1)) as Hb' by by etrans.
      apply sublist_seq_lt in Hb'. eapply Forall_impl; [done |].
      intros; simpl in *; lia.
    + apply Forall_singleton, swap_strs_length.
  - intros Hlen. split; intros cases max strs Happ.
    + destruct (Hsub cases max) as (strs' & Heq & Hall).
      rewrite Heq in Happ. simplify_eq.
      eapply Forall_impl; [done |]. intros out ->. done.
    + destruct (Htra cases max) as (strs' & Heq & Hall).
      rewrite Heq in Happ. simplify_eq.
      eapply Forall_impl; [done |]. intros out ->. done.
Qed.

Lemma sub_tra_keep_length_witness :
  Forall (λ out, String.length out ≤ 15) ["r0ot"; "ro0t"; "r00t"]%string.
Proof.
  refine (proj1 (proj2 (proj2 (proj2 (proj2 (sub_tra_keep_length "root")))) _)
            o_to_0 2 _ _).
  - simpl. lia.
  - by vm_compute.
Defined.

(** ** Transposition *)

Section transposition.
Implicit Types (chars : list ascii) (edit sites : list nat).

Lemma tra_swaps_app edit1 edit2 chars :
  tra_swaps (edit1 ++ edit2) chars = tra_swaps edit1 chars ≫= tra_swaps edit2.
Proof.
  revert chars. induction edit1 as [|i edit1 IH]; intros chars; [done |].
  simpl. destruct (tra_swap chars i) as [chars'|]; simpl; [apply IH | done].
Qed.

Lemma sublist_seq_pair sites n m i j :
  sites `sublist_of` seq n m → i ∈ sites → j ∈ sites → i < j →
  [i; j] `sublist_of` sites.
Proof.
  revert n m. induction sites as [|x sites IH]; intros n m Hsub Hi Hj Hlt.
  { by apply elem_of_nil in Hi. }
  destruct (sublist_seq_cons _ _ _ _ Hsub) as [_ Hsites].
  pose proof (sublist_seq_bounds _ _ _ Hsites) as Hb.
  rewrite Forall_forall in Hb.
  apply elem_of_cons in Hi as [-> | Hi], Hj as [-> | Hj].
  - lia.
  - apply sublist_skip. by apply singleton_sublist_l.
  - apply Hb in Hi. lia.
  - apply sublist_cons. by eapply IH.
Qed.

Lemma swap_adjacent_lookup chars i a b c :
  chars !! i = Some a → chars !! S i = Some b → chars !! S (S i) = Some c →
  foldl swap_chars chars [i; S i] !! i = Some b ∧
  foldl swap_chars chars [i; S i] !! S i = Some c ∧
  foldl swap_chars chars [i; S i] !! S (S i) = Some a.
Proof.
  intros Ha Hb Hc. pose proof (lookup_lt_Some _ _ _ Hc) as Hlen.
  assert (swap_chars chars i = <[S i:=a]> (<[i:=b]> chars)) as Hfirst.
  { unfold swap_chars. by rewrite Ha, Hb. }
  assert (swap_chars (swap_chars chars i) (S i)
          = <[S (S i):=a]> (<[S i:=c]> (<[S i:=a]> (<[i:=b]> chars))))
    as Hsecond.
  { rewrite Hfirst. unfold swap_chars.
    rewrite list_lookup_insert_eq by (rewrite length_insert; lia).
    rewrite !list_lookup_insert_ne by lia. by rewrite Hc. }
  cbn [foldl]. rewrite Hsecond. split; [| split].
  - rewrite !list_lookup_insert_ne by lia.
    by rewrite list_lookup_insert_eq by lia.
  - rewrite list_lookup_insert_ne by lia.
    by rewrite list_lookup_insert_eq by (rewrite !length_insert; lia).
  - by rewrite list_lookup_insert_eq by (rewrite !length_insert; lia).
Qed.

Lemma independent_adjacent_lookup chars i a b c :
  chars !! i = Some a → chars !! S i = Some b → chars !! S (S i) = Some c →
  independent_swaps chars [i; S i] !! S (S i) = Some b.
Proof.
  intros Ha Hb Hc. pose proof (lookup_lt_Some _ _ _ Hc) as Hlen.
  unfold independent_swaps. simpl. rewrite Ha, Hb, Hc.
  by rewrite list_lookup_insert_eq by (rewrite !length_insert; lia).
Qed.
End transposition.

(** C6. For every input string and every combination of transposition
    sites, [TraOp.generate] applies the swaps one after the other to a
    single buffer, in the order of the combination: the swaps of a
    combination continue on the buffer its first part has left.  When the
    adjacent sites [i] and [i+1] are selected together, the second swap
    moves on the character the first one has put at [i+1], so the three
    characters rotate; with independent swaps, each reading the input, the
    result would differ, the characters at [i] and [i+1] being distinct. *)
Theorem tra_generate_sequential (cases : list (list ascii)) (s : string)
    (sites : list nat) :
  tra_edits cases s = Some sites →
  (∀ r edit, edit ∈ combinations r sites →
     tra_generate s edit = Some [join (foldl swap_chars (chars_of s) edit)]) ∧
  (∀ edit1 edit2 chars,
     tra_swaps (edit1 ++ edit2) chars
     = tra_swaps edit1 chars ≫= tra_swaps edit2) ∧
  (∀ i, i ∈ sites → S i ∈ sites →
     [i; S i] ∈ combinations 2 sites ∧
     ∃ a b c out,
       chars_of s !! i = Some a ∧ chars_of s !! S i = Some b ∧
       chars_of s !! S (S i) = Some c ∧
       tra_generate s [i; S i] = Some [out] ∧
       chars_of out !! i = Some b ∧ chars_of out !! S i = Some c ∧
       chars_of out !! S (S i) = Some a ∧
       (a ≠ b → out ≠ join (independent_swaps (chars_of s) [i; S i]))).
Proof.
  intros Hsites.
  destruct (tra_edits_Some cases s) as (sites' & Hsites' & Hb & Hin).
  rewrite Hsites in Hsites'. injection Hsites' as <-.
  assert (Hgen : ∀ edit, edit `sublist_of` sites →
    tra_generate s edit = Some [join (foldl swap_chars (chars_of s) edit)]).
  { intros edit Hsub. apply tra_generate_Some.
    assert (edit `sublist_of` seq 0 (String.length s - 1)) as Hb' by by etrans.
    apply sublist_seq_lt in Hb'. eapply Forall_impl; [done |].
    intros; simpl in *; lia. }
  split; [| split].
  - intros r edit [Hsub _]%combinations_sublist. by apply Hgen.
  - apply tra_swaps_app.
  - intros i Hi HSi.
    assert ([i; S i] `sublist_of` sites) as Hpair
      by (eapply sublist_seq_pair; [done | done | done | lia]).
    split; [by apply (sublist_combinations sites [i; S i]) |].
    apply Hin in Hi as (a & b & Ha & Hb1 & _).
    apply Hin in HSi as (b' & c & Hb2 & Hc & _).
    rewrite Hb1 in Hb2. injection Hb2 as <-.
    exists a, b, c, (join (foldl swap_chars (chars_of s) [i; S i])).
    destruct (swap_adjacent_lookup _ _ _ _ _ Ha Hb1 Hc) as (H0 & H1 & H2).
    rewrite chars_of_join.
    split; [done |]. split; [done |]. split; [done |].
    split; [by apply Hgen |].
    split; [done |]. split; [done |]. split; [done |].
    intros Hne Heq%join_inj.
    pose proof (independent_adjacent_lookup _ _ _ _ _ Ha Hb1 Hc) as Hind.
    rewrite <-Heq, H2 in Hind. congruence.
Qed.

Lemma tra_generate_sequential_witness :
  tra_generate "abc" [0; 1]
  = Some [join (foldl swap_chars (chars_of "abc") [0; 1])].
Proof.
  refine (proj1 (tra_generate_sequential
                   [["a"; "b"]; ["b"; "c"]]%char "abc" [0; 1] _) 2 [0; 1] _).
  - by vm_compute.
  - vm_compute. apply list_elem_of_here.
Defined.

(** ** [unique] *)

Section unique.
Context {A : Type} `{EqDecision A}.
Implicit Types (l keys : list A).

Lemma unique_foldl_cons a keys l :
  foldl (λ keys x, if decide (x ∈ keys) then keys else keys ++ [x]) (a :: keys) l
  = a :: foldl (λ keys x, if decide (x ∈ keys) then keys else keys ++ [x])
               keys (filter (λ x, x ≠ a) l).
Proof.
  revert keys. induction l as [|y l IH]; intros keys; [done |].
  cbn [foldl]. rewrite filter_cons.
  destruct (decide (y = a)) as [-> | Hne].
  - rewrite decide_True by left. rewrite decide_False by (intros Hn; by apply Hn).
    apply IH.
  - rewrite (decide_True (P := y ≠ a)) by done. cbn [foldl].
    destruct (decide (y ∈ keys)) as [Hin | Hni].
    + rewrite decide_True by by right. apply IH.
    + rewrite decide_False by (intros [? | ?]%elem_of_cons; done).
      apply (IH (keys ++ [y])).
Qed.

Lemma unique_cons x l : unique (x :: l) = x :: unique (filter (λ y, y ≠ x) l).
Proof.
  unfold unique. cbn [foldl].
  rewrite decide_False by apply not_elem_of_nil.
  apply (unique_foldl_cons x []).
Qed.

Lemma unique_nil : unique (@nil A) = [].
Proof. done. Qed.

Lemma unique_ind (P : list A → Prop) :
  P [] →
  (∀ x l, P (filter (λ y, y ≠ x) l) → P (x :: l)) →
  ∀ l, P l.
Proof.
  intros Hnil Hcons l.
  remember (length l) as n eqn:Hn. revert l Hn.
  induction n as [n IH] using lt_wf_ind. intros [|x l] ->; [done |].
  apply Hcons. eapply IH; [| done].
  simpl. pose proof (length_filter (λ y, y ≠ x) l). lia.
Qed.
End unique.

(** X1. [unique] keeps exactly the first occurrence of every element:
    its result has no duplicate, has the elements of its argument, is a
    subsequence of it, starts with its head followed by the [unique] of
    the rest without that head, and is its argument when that has no
    duplicate. *)
Theorem unique_first_occurrences {A} `{EqDecision A} (l : list A) :
  NoDup (unique l) ∧
  (∀ x, x ∈ unique l ↔ x ∈ l) ∧
  unique l `sublist_of` l ∧
  (∀ x l', l = x :: l' → unique l = x :: unique (filter (λ y, y ≠ x) l')) ∧
  (NoDup l → unique l = l).
Proof.
  assert (Hin : ∀ l : list A, ∀ x, x ∈ unique l ↔ x ∈ l).
  { intros l0. induction l0 as [|y l0 IH] using unique_ind; intros x; [done |].
    rewrite unique_cons, !elem_of_cons, IH, list_elem_of_filter.
    destruct (decide (x = y)); tauto. }
  split; [| split; [| split; [| split]]].
  - induction l as [|y l IH] using unique_ind; [apply NoDup_nil_2 |].
    rewrite unique_cons. apply NoDup_cons. split; [| done].
    rewrite Hin, list_elem_of_filter. tauto.
  - apply Hin.
  - induction l as [|y l IH] using unique_ind; [done |].
    rewrite unique_cons. apply sublist_skip.
    etrans; [done | apply sublist_filter].
  - intros x l' ->. apply unique_cons.
  - induction 1 as [|x l Hx _ IH]; [done |].
    rewrite unique_cons. f_equal.
    replace (filter (λ y, y ≠ x) l) with l; [done |].
    clear IH. induction l as [|y l IH]; [done |].
    apply not_elem_of_cons in Hx as [Hne Hx].
    rewrite filter_cons_True by done. f_equal. by apply IH.
Qed.

Lemma unique_first_occurrences_witness : unique [1; 2; 3] = [1; 2; 3].
Proof.
  apply (unique_first_occurrences [1; 2; 3]).
  apply (bool_decide_unpack _). by vm_compute.
Defined.

(** ** The batch driver *)

Section batch.
Implicit Types (targets users : list string) (profile : list EditOp).

Lemma generate_all_parts targets profile :
  ∃ parts,
    Forall2 (λ target users, generate_users target profile = Some users)
            targets parts ∧
    Forall (λ users, NoDup users) parts ∧
    generate_all targets profile = Some (mjoin parts).
Proof.
  induction targets as [|target targets (parts & Hparts & Hnd & Hall)].
  - by exists [].
  - destruct (generate_users_Some target profile) as (users & _ & Hgen & _ & Hu).
    exists (users :: parts). split; [by constructor |]. split; [by constructor |].
    simpl. rewrite Hgen. simpl. by rewrite Hall.
Qed.

Lemma NoDup_count (v : string) users :
  NoDup users →
  length (filter (λ w, w = v) users) = if decide (v ∈ users) then 1 else 0.
Proof.
  induction 1 as [|w users Hw _ IH]; [done |].
  rewrite filter_cons. destruct (decide (w = v)) as [-> | Hne].
  - rewrite decide_True by left. simpl. rewrite IH.
    by rewrite decide_False.
  - rewrite IH. destruct (decide (v ∈ users)) as [Hin | Hni].
    + by rewrite decide_True by by right.
    + rewrite decide_False; [done |]. by intros [-> | ?]%elem_of_cons.
Qed.

Lemma generate_users_length_le target profile users :
  String.length target ≤ 15 → generate_users target profile = Some users →
  Forall (λ user, String.length user ≤ 15) users.
Proof.
  intros Hlen Hgen.
  destruct (generate_users_Some target profile) as (users' & Hexp & Hgen' & _).
  rewrite Hgen in Hgen'. injection Hgen' as <-.
  eapply (expand_profile_Forall (λ user, String.length user ≤ 15)) in Hexp.
  - by apply Forall_cons in Hexp as [_ ?].
  - intros op s strs out ? ? ?. by eapply apply_length.
  - by apply Forall_singleton.
Qed.
End batch.

(** X2. [generate_all] returns the candidate lists of the targets one
    after the other, without removing what several targets share: a
    string occurs in the result once for every target that generates it.
    With targets of at most 15 characters every string of the result has
    at most 15 characters. *)
Theorem generate_all_multiplicity (targets : list string) (profile : list EditOp) :
  ∃ parts all,
    Forall2 (λ target users, generate_users target profile = Some users)
            targets parts ∧
    generate_all targets profile = Some all ∧
    all = mjoin parts ∧
    (∀ v, length (filter (λ w, w = v) all)
          = length (filter (λ users, v ∈ users) parts)) ∧
    (Forall (λ target, String.length target ≤ 15) targets →
     Forall (λ user, String.length user ≤ 15) all).
Proof.
  destruct (generate_all_parts targets profile) as (parts & Hparts & Hnd & Hall).
  exists parts, (mjoin parts).
  split; [done |]. split; [done |]. split; [done |]. split.
  - intros v. clear Hparts Hall.
    induction Hnd as [|users parts Hu _ IH]; [done |].
    simpl. rewrite filter_app, length_app, IH, filter_cons.
    rewrite NoDup_count by done.
    destruct (decide (v ∈ users)); simpl; lia.
  - intros Hlen. clear Hall Hnd. revert Hlen.
    induction Hparts as [|target users targets parts Hgen _ IH]; intros Hlen.
    { constructor. }
    apply Forall_cons in Hlen as [Ht Hlen].
    simpl. apply Forall_app. split; [| by apply IH].
    by eapply generate_users_length_le.
Qed.

Lemma generate_all_multiplicity_witness :
  ∃ all, generate_all ["ab"; "ba"]%string [TraOp [["a"; "b"]; ["b"; "a"]]%char 1]
         = Some all ∧
         Forall (λ user, String.length user ≤ 15) all.
Proof.
  destruct (generate_all_multiplicity ["ab"; "ba"]%string
              [TraOp [["a"; "b"]; ["b"; "a"]]%char 1])
    as (parts & all & _ & Hall & _ & _ & Hlen).
  exists all. split; [done |]. apply Hlen.
  repeat constructor; simpl; lia.
Defined.

(** ** What the pool contains *)

Section derivation.
Implicit Types (users : list string) (profile : list EditOp).

Lemma expand_profile_derives users profile users' :
  expand_profile users profile = Some users' →
  ∀ v, v ∈ users' ↔ ∃ u, u ∈ users ∧ derives profile u v.
Proof.
  revert users. induction profile as [|op profile IH]; intros users Hexp v.
  - simpl in Hexp. injection Hexp as <-. split.
    + intros Hv. exists v. split; [done | constructor].
    + intros (u & Hu & Hd). by inversion Hd; subst.
  - simpl in Hexp.
    destruct (expand_op_Some users op) as (temp & Ht & _ & Hin).
    rewrite Ht in Hexp. simpl in Hexp. rewrite (IH _ Hexp). split.
    + intros (w & [Hw | (user & strs & Hu & Happ & Hw)]%Hin & Hd).
      * exists w. split; [done |]. by apply derives_skip.
      * exists user. split; [done |]. by eapply derives_step.
    + intros (u & Hu & Hd).
      inversion Hd as [|? ? ? ? Hd'|? ? ? strs w ? Happ Hw Hd']; subst.
      * exists u. split; [| done]. apply Hin. by left.
      * exists w. split; [| done]. apply Hin. right. by exists u, strs.
Qed.
End derivation.

(** X3. [generate_users] returns exactly the strings, other than the
    target, that are derived from the target by operations of the
    profile taken in the order of the profile, each at most once and
    each contributing one of its outputs. *)
Theorem generate_users_derives (target : string) (profile : list EditOp) :
  ∃ users, generate_users target profile = Some users ∧
    ∀ v, v ∈ users ↔ v ≠ target ∧ derives profile target v.
Proof.
  destruct (generate_users_Some target profile) as (users & Hexp & Hgen & Hni & _).
  exists users. split; [done |]. intros v.
  pose proof (expand_profile_derives _ _ _ Hexp v) as Hd.
  rewrite elem_of_cons in Hd. split.
  - intros Hv. split; [by intros -> |].
    destruct Hd as [Hd _]. destruct Hd as (u & ->%list_elem_of_singleton & Hd);
      [by right | done].
  - intros [Hne Hder]. destruct Hd as [_ Hd].
    destruct Hd as [? | ?]; [| done | done].
    exists target. split; [by apply list_elem_of_singleton | done].
Qed.

(** ** What [generate_users] prints *)

Section output.
Implicit Types (users temp out : list string) (quiet : bool).

Lemma lines_app quiet l1 l2 : success_lines quiet (l1 ++ l2) = success_lines quiet l1 ++ success_lines quiet l2.
Proof. unfold success_lines. destruct quiet; [done | by rewrite fmap_app]. Qed.

Lemma stage_out_stage quiet users temp out0 user1 :
  stage_out quiet users (temp, out0 ++ success_lines quiet temp) user1
  = (stage users temp user1, out0 ++ success_lines quiet (stage users temp user1)).
Proof.
  unfold stage_out, stage. simpl. case_decide; [done |].
  rewrite lines_app, (assoc_L (++)). f_equal.
  unfold success, success_lines. destruct quiet; simpl; [by rewrite !app_nil_r | done].
Qed.

Lemma foldl_stage_out quiet users temp out0 strs :
  foldl (stage_out quiet users) (temp, out0 ++ success_lines quiet temp) strs
  = (foldl (stage users) temp strs,
     out0 ++ success_lines quiet (foldl (stage users) temp strs)).
Proof.
  revert temp. induction strs as [|user1 strs IH]; intros temp; [done |].
  simpl. by rewrite stage_out_stage, IH.
Qed.

Lemma expand_users_out_eq quiet op users temp out0 todo :
  expand_users_out quiet op users (temp, out0 ++ success_lines quiet temp) todo
  = (λ temp', (temp', out0 ++ success_lines quiet temp'))
      <$> expand_users op users temp todo.
Proof.
  revert temp. induction todo as [|user todo IH]; intros temp; [done |].
  simpl. unfold expand_user.
  destruct (apply op user) as [strs|]; simpl; [| done].
  by rewrite foldl_stage_out, IH.
Qed.

Lemma expand_profile_out_eq quiet users out0 profile new :
  expand_profile users profile = Some (users ++ new) →
  expand_profile_out quiet users out0 profile
  = Some (users ++ new, out0 ++ success_lines quiet new).
Proof.
  revert users out0 new.
  induction profile as [|op profile IH]; intros users out0 new Hexp.
  - simpl in *. injection Hexp as Hexp.
    rewrite <-(app_nil_r users) in Hexp at 1. apply (inj _) in Hexp as <-.
    unfold success_lines. destruct quiet; by rewrite !app_nil_r.
  - simpl in *.
    destruct (expand_op_Some users op) as (temp & Ht & _).
    rewrite Ht in Hexp. simpl in Hexp.
    destruct (expand_profile_Some (users ++ temp) profile) as (new' & Hnew & _).
    rewrite Hnew in Hexp. injection Hexp as Hexp.
    rewrite <-(assoc_L (++)) in Hexp. apply (inj _) in Hexp as <-.
    unfold expand_op in Ht.
    destruct (expand_users op users [] users) as [temp'|] eqn:Htemp;
      simpl in Ht; [| done].
    injection Ht as Ht. apply (inj _) in Ht as ->.
    pose proof (expand_users_out_eq quiet op users [] out0 users) as Hout.
    rewrite Htemp in Hout. simpl in Hout.
    replace (out0 ++ success_lines quiet []) with out0 in Hout
      by (unfold success_lines; destruct quiet; by rewrite app_nil_r).
    rewrite Hout. simpl.
    rewrite (IH _ _ _ Hnew). by rewrite lines_app, !(assoc_L (++)).
Qed.

Lemma generate_users_out_eq target profile quiet users :
  generate_users target profile = Some users →
  generate_users_out target profile quiet = Some (users, success_lines quiet users).
Proof.
  intros Hgen.
  destruct (generate_users_Some target profile) as (users' & Hexp & Hgen' & _).
  rewrite Hgen in Hgen'. injection Hgen' as <-.
  unfold generate_users_out.
  rewrite (expand_profile_out_eq quiet [target] [] profile users) by done.
  simpl. by rewrite decide_True.
Qed.
End output.

(** X4. The lines [generate_users] prints are the candidates it returns,
    in the order of the result and each once, every one after ["[+] "];
    with [quiet] it prints nothing and returns the same candidates. *)
Theorem generate_users_notifications (target : string) (profile : list EditOp)
    (quiet : bool) :
  ∃ users, generate_users target profile = Some users ∧
    generate_users_out target profile quiet
    = Some (users, success_lines quiet users).
Proof.
  destruct (generate_users_Some target profile) as (users & _ & Hgen & _).
  exists users. split; [done |]. by apply generate_users_out_eq.
Qed.

(** ** The shape of the outputs of Insertion and Deletion *)

Section shapes.
Implicit Types (s out : string) (chars : list ascii).

Lemma sublist_insert_cells {A} n (l : list A) (extras : nat * A → list A) :
  l `sublist_of` (ic ← enumerate_from n l; ic.2 :: extras ic).
Proof.
  revert n. induction l as [|x l IH]; intros n; [done |].
  cbn [enumerate_from]. rewrite bind_cons. simpl.
  apply sublist_skip. by apply sublist_inserts_l.
Qed.

Lemma sublist_insert_after chars choice :
  chars `sublist_of` insert_after chars choice.
Proof. apply sublist_insert_cells. Qed.

Lemma ins_strs_shape cases s edit out :
  edit `sublist_of` ins_edits cases s → out ∈ ins_strs s edit →
  String.length out = String.length s + length edit ∧
  String.length out ≤ 15 ∧
  chars_of s `sublist_of` chars_of out.
Proof.
  intros Hsub. rewrite ins_strs_insert_after.
  intros [Hlen (ed & -> & Hed%product_length)%list_elem_of_fmap]%list_elem_of_filter.
  rewrite length_fmap in Hed.
  destruct (sublist_sites_range _ _ _ (sub_edits_sublist cases s) Hsub)
    as [Hps _].
  split; [| split; [done |]].
  - rewrite length_join, length_insert_after.
    + rewrite length_zip, length_fmap, length_chars_of. lia.
    + apply Forall_forall. intros [p x] Hpx.
      assert (p ∈ edit.*1) as Hp.
      { apply (list_elem_of_fmap_2 fst) in Hpx.
        by rewrite fst_zip in Hpx by (rewrite length_fmap; lia). }
      apply sublist_seq_lt in Hps. rewrite Forall_forall in Hps.
      simpl. rewrite length_chars_of. by apply Hps.
  - rewrite chars_of_join. apply sublist_insert_after.
Qed.

Lemma del_generate_shape (cases : list ascii) s edit out :
  edit `sublist_of` del_edits cases s → out ∈ del_generate s edit →
  String.length out = String.length s - length edit ∧
  1 ≤ String.length out ∧
  chars_of out `sublist_of` chars_of s.
Proof.
  intros Hsub Hout.
  assert (edit `sublist_of` seq 0 (String.length s)) as Hps
    by (etrans; [done | apply del_edits_sublist]).
  assert (chars_of out `sublist_of` chars_of s ∧ 1 ≤ String.length out)
    as [Hsubl Hne].
  { unfold del_generate in Hout.
    assert ((filter (λ ic, ic.1 ∉ edit) (enumerate (chars_of s))).*2
            `sublist_of` chars_of s) as Hf.
    { unfold enumerate.
      rewrite <-(fmap_snd_enumerate_from 0 (chars_of s)) at 2.
      apply fmap_sublist, sublist_filter. }
    destruct ((filter _ _).*2) as [|c chars]; [by apply elem_of_nil in Hout |].
    apply list_elem_of_singleton in Hout as ->.
    rewrite chars_of_join, length_join. split; [done | simpl; lia]. }
  split; [| done].
  rewrite del_generate_remove in Hout by done.
  case_decide; [by apply elem_of_nil in Hout |].
  apply list_elem_of_singleton in Hout as ->.
  rewrite length_join, length_remove_positions by by rewrite length_chars_of.
  by rewrite length_chars_of.
Qed.
End shapes.

(** X5. Every output of Insertion contains the characters of the input
    in order and is longer than it by the number of sites used, between
    1 and [max]; it has at most 15 characters. *)
Theorem apply_InsOp_shape (cases : gmap ascii (list ascii)) (max : nat)
    (s : string) (strs : list string) (out : string) :
  apply (InsOp cases max) s = Some strs → out ∈ strs →
  String.length s < String.length out ∧
  String.length out ≤ String.length s + max ∧
  String.length out ≤ 15 ∧
  chars_of s `sublist_of` chars_of out.
Proof.
  rewrite apply_InsOp. intros [= <-].
  intros (edit & [Hr Hsub]%elem_of_site_combinations & Hout)%elem_of_mjoin_fmap.
  destruct (ins_strs_shape _ _ _ _ Hsub Hout) as (Hlen & H15 & Hsubl).
  repeat split; [lia | lia | done | done].
Qed.

Lemma apply_InsOp_shape_witness :
  String.length "root" < String.length "ro0ot" ∧
  String.length "ro0ot" ≤ String.length "root" + 1 ∧
  String.length "ro0ot" ≤ 15 ∧
  chars_of "root" `sublist_of` chars_of "ro0ot".
Proof.
  apply (apply_InsOp_shape o_to_0 1 "root" ["ro0ot"; "roo0t"]%string).
  - by vm_compute.
  - apply list_elem_of_here.
Defined.

(** X6. Every output of Deletion is a subsequence of the input, not
    empty, and shorter than the input by the number of sites used,
    between 1 and [max]. *)
Theorem apply_DelOp_shape (cases : list ascii) (max : nat)
    (s : string) (strs : list string) (out : string) :
  apply (DelOp cases max) s = Some strs → out ∈ strs →
  1 ≤ String.length out ∧
  String.length out < String.length s ∧
  String.length s ≤ String.length out + max ∧
  chars_of out `sublist_of` chars_of s.
Proof.
  rewrite apply_DelOp. intros [= <-].
  intros (edit & [Hr Hsub]%elem_of_site_combinations & Hout)%elem_of_mjoin_fmap.
  destruct (del_generate_shape _ _ _ _ Hsub Hout) as (Hlen & Hne & Hsubl).
  repeat split; [done | lia | lia | done].
Qed.

Lemma apply_DelOp_shape_witness :
  1 ≤ String.length "rot" ∧
  String.length "rot" < String.length "root" ∧
  String.length "root" ≤ String.length "rot" + 2 ∧
  chars_of "rot" `sublist_of` chars_of "root".
Proof.
  apply (apply_DelOp_shape ["o"%char] 2 "root" ["rot"; "rot"; "rt"]%string).
  - by vm_compute.
  - apply list_elem_of_here.
Defined.

(** ** Operations with validated tables never return their input *)

Section not_input.
Implicit Types (s out : string) (chars : list ascii).

Lemma swap_chars_lookup_lt chars i j :
  i < j → swap_chars chars j !! i = chars !! i.
Proof.
  intros Hlt. unfold swap_chars.
  destruct (chars !! j), (chars !! S j); try done.
  by rewrite !list_lookup_insert_ne by lia.
Qed.

Lemma foldl_swap_chars_lookup_lt chars i (ps : list nat) :
  Forall (λ j, i < j) ps → foldl swap_chars chars ps !! i = chars !! i.
Proof.
  intros Hps. revert chars.
  induction Hps as [|j ps Hj _ IH]; intros chars; [done |].
  simpl. by rewrite IH, swap_chars_lookup_lt.
Qed.

Lemma sub_strs_not_input cases s edit out :
  (∀ c reps, cases !! c = Some reps → c ∉ reps) →
  edit `sublist_of` sub_edits cases s → 1 ≤ length edit →
  out ∈ sub_strs s edit → out ≠ s.
Proof.
  intros Hvalid Hsub Hlen (ed & -> & Hed)%list_elem_of_fmap Heq.
  destruct (sublist_sites_range _ _ _ (sub_edits_sublist cases s) Hsub)
    as [Hps Hrange].
  destruct edit as [|[p reps] edit]; [simpl in Hlen; lia |].
  apply product_Forall2 in Hed. rewrite fmap_cons in Hed.
  inversion Hed as [|x ? ed' ? Hx Hed']; subst.
  apply (f_equal chars_of) in Heq. rewrite chars_of_join in Heq.
  assert ((p, reps) ∈ sub_edits cases s) as Hsite
    by (eapply elem_of_sublist; [left | done]).
  apply elem_of_sub_edits in Hsite as (c & Hc & Hreps).
  assert (assign_all (chars_of s) (zip ((p, reps) :: edit).*1 (x :: ed')) !! p
          = Some x) as Hlook.
  { apply lookup_assign_all_in.
    - rewrite fst_zip; [by eapply sublist_seq_NoDup |].
      apply Forall2_length in Hed'. rewrite length_fmap in Hed'.
      rewrite length_fmap. simpl. lia.
    - left.
    - by eapply lookup_lt_Some. }
  rewrite Heq, Hc in Hlook. injection Hlook as ->.
  by eapply Hvalid.
Qed.

Lemma swap_strs_not_input (cases : list (list ascii)) s sites edit :
  (∀ pair, pair ∈ cases → ∃ a b, pair = [a; b] ∧ a ≠ b) →
  tra_edits cases s = Some sites →
  edit `sublist_of` sites → 1 ≤ length edit →
  join (foldl swap_chars (chars_of s) edit) ≠ s.
Proof.
  intros Hvalid Hsites Hsub Hlen Heq.
  destruct (tra_edits_Some cases s) as (sites' & Hsites' & Hb & Hin).
  rewrite Hsites in Hsites'. injection Hsites' as <-.
  destruct edit as [|i edit]; [simpl in Hlen; lia |].
  assert (i ∈ sites) as Hi by (eapply elem_of_sublist; [left | done]).
  apply Hin in Hi as (a & b & Ha & Hb' & Hpair).
  destruct (Hvalid _ Hpair) as (a' & b' & [= <- <-] & Hne).
  assert (i :: edit `sublist_of` seq 0 (String.length s - 1)) as Hps by by etrans.
  destruct (sublist_seq_cons _ _ _ _ Hps) as [_ Hrest].
  apply sublist_seq_bounds in Hrest.
  apply (f_equal chars_of) in Heq. rewrite chars_of_join in Heq.
  apply (f_equal (λ l, l !! i)) in Heq. simpl in Heq.
  rewrite foldl_swap_chars_lookup_lt in Heq
    by (eapply Forall_impl; [done |]; intros; simpl in *; lia).
  unfold swap_chars in Heq. rewrite Ha, Hb' in Heq.
  rewrite list_lookup_insert_ne in Heq by lia.
  rewrite list_lookup_insert_eq in Heq by by eapply lookup_lt_Some.
  congruence.
Qed.
End not_input.

Lemma valid_op_not_input (op : EditOp) (s : string) (strs : list string) :
  valid_op op → apply op s = Some strs → s ∉ strs.
Proof.
  intros Hvalid Happ Hin.
  destruct op as [cases max|cases max|cases max|cases max|cases|cases].
  - rewrite apply_SubOp in Happ. injection Happ as <-.
    apply elem_of_mjoin_fmap in Hin
      as (edit & [Hr Hsub]%elem_of_site_combinations & Hout).
    destruct Hvalid as [_ Hvalid].
    eapply sub_strs_not_input; [| done | lia | done | done].
    intros c reps Hreps. by apply Hvalid in Hreps as (_ & _ & ?).
  - destruct (apply_TraOp cases max s) as (sites & Hsites & Heq).
    rewrite Heq in Happ. injection Happ as <-.
    apply elem_of_mjoin_fmap in Hin
      as (edit & [Hr Hsub]%elem_of_site_combinations & Hout%list_elem_of_singleton).
    destruct Hvalid as (_ & _ & Hvalid).
    eapply swap_strs_not_input; [done | done | done | lia | done].
  - pose proof (apply_InsOp cases max s) as Heq.
    rewrite Heq in Happ. injection Happ as <-.
    apply elem_of_mjoin_fmap in Hin
      as (edit & [Hr Hsub]%elem_of_site_combinations & Hout).
    destruct (ins_strs_shape _ _ _ _ Hsub Hout) as (Hlen & _). lia.
  - pose proof (apply_DelOp cases max s) as Heq.
    rewrite Heq in Happ. injection Happ as <-.
    apply elem_of_mjoin_fmap in Hin
      as (edit & [Hr Hsub]%elem_of_site_combinations & Hout).
    destruct (del_generate_shape _ _ _ _ Hsub Hout) as (Hlen & Hne & _). lia.
  - simpl in Happ. injection Happ as <-. unfold pre_apply in Hin.
    apply list_elem_of_filter in Hin as [_ (affix & Heq & Haffix)%list_elem_of_fmap].
    destruct Hvalid as [_ Hvalid]. apply Hvalid in Haffix.
    apply (f_equal String.length) in Heq. rewrite length_string_app in Heq. lia.
  - simpl in Happ. injection Happ as <-. unfold suf_apply in Hin.
    apply list_elem_of_filter in Hin as [_ (affix & Heq & Haffix)%list_elem_of_fmap].
    destruct Hvalid as [_ Hvalid]. apply Hvalid in Haffix.
    apply (f_equal String.length) in Heq. rewrite length_string_app in Heq. lia.
Qed.

(** X7. An operation whose table has the shape the parsers build never
    returns its input among its outputs: a replacement differs from the
    character it replaces, the two characters of a transposed pair
    differ, an affix is not empty, and Insertion and Deletion change the
    length. *)
Theorem apply_not_input (op : EditOp) (s : string) (strs : list string) :
  valid_op op → apply op s = Some strs → s ∉ strs.
Proof. apply valid_op_not_input. Qed.

Lemma apply_not_input_witness :
  "root"%string ∉ ["r0ot"; "ro0t"]%string.
Proof.
  apply (apply_not_input (SubOp o_to_0 1) "root").
  - split; [simpl; lia |]. intros c reps Hreps.
    unfold o_to_0 in Hreps. apply lookup_singleton_Some in Hreps as [<- <-].
    split; [done |]. split; [apply NoDup_singleton |].
    by intros ?%list_elem_of_singleton.
  - by vm_compute.
Defined.

(** ** Invariants of the candidates *)

Section candidates.
Implicit Types (s out : string) (chars : list ascii) (op : EditOp).

Lemma expand_profile_Forall_in (P : string → Prop) users ops profile users' :
  (∀ op s strs out, op ∈ profile → P s → apply op s = Some strs →
                    out ∈ strs → P out) →
  ops ⊆ profile →
  Forall P users → expand_profile users ops = Some users' →
  Forall P users'.
Proof.
  intros HP. revert users.
  induction ops as [|op ops IH]; intros users Hsub Hall Hexp.
  - by simplify_eq/=.
  - simpl in Hexp.
    destruct (expand_op_Some users op) as (temp & Ht & _ & Hin).
    rewrite Ht in Hexp. simpl in Hexp. eapply IH; [| | done].
    + intros o Ho. apply Hsub. by right.
    + apply Forall_forall. intros v [Hv | (user & strs & Hu & Happ & Hv)]%Hin.
      * by eapply Forall_forall in Hall.
      * eapply (HP op); [apply Hsub; left | | done | done].
        by eapply Forall_forall in Hall.
Qed.

Lemma apply_nonempty op s strs out :
  apply op s = Some strs → out ∈ strs → 1 ≤ String.length s →
  1 ≤ String.length out.
Proof.
  intros Happ Hout Hs.
  destruct op as [cases max|cases max|cases max|cases max|cases|cases].
  - rewrite apply_SubOp in Happ. injection Happ as <-.
    apply elem_of_mjoin_fmap in Hout as (edit & _ & Hout).
    by rewrite (sub_strs_length _ _ _ Hout).
  - destruct (apply_TraOp cases max s) as (sites & _ & Heq).
    rewrite Heq in Happ. injection Happ as <-.
    apply elem_of_mjoin_fmap in Hout as (ps & _ & ->%list_elem_of_singleton).
    by rewrite swap_strs_length.
  - pose proof (apply_InsOp cases max s) as Heq.
    rewrite Heq in Happ. injection Happ as <-.
    apply elem_of_mjoin_fmap in Hout
      as (edit & [_ Hsub]%elem_of_site_combinations & Hout).
    destruct (ins_strs_shape _ _ _ _ Hsub Hout) as (Hlen & _). lia.
  - pose proof (apply_DelOp cases max s) as Heq.
    rewrite Heq in Happ. injection Happ as <-.
    apply elem_of_mjoin_fmap in Hout
      as (edit & [_ Hsub]%elem_of_site_combinations & Hout).
    by destruct (del_generate_shape _ _ _ _ Hsub Hout) as (_ & ? & _).
  - simpl in Happ. injection Happ as <-. unfold pre_apply in Hout.
    apply list_elem_of_filter in Hout as [_ (affix & -> & _)%list_elem_of_fmap].
    rewrite length_string_app. lia.
  - simpl in Happ. injection Happ as <-. unfold suf_apply in Hout.
    apply list_elem_of_filter in Hout as [_ (affix & -> & _)%list_elem_of_fmap].
    rewrite length_string_app. lia.
Qed.

(** Characters *)

Context (P : ascii → Prop).

Lemma assign_all_Forall chars (choice : list (nat * ascii)) :
  Forall P chars → Forall P choice.*2 → Forall P (assign_all chars choice).
Proof.
  revert chars. induction choice as [|[p x] choice IH]; intros chars Hc Hx; [done |].
  rewrite fmap_cons in Hx. apply Forall_cons in Hx as [Hx Hrest].
  simpl. apply IH; [| done]. by apply Forall_insert.
Qed.

Lemma insert_after_Forall chars (choice : list (nat * ascii)) :
  Forall P chars → Forall P choice.*2 → Forall P (insert_after chars choice).
Proof.
  intros Hc Hx. apply Forall_forall. intros x.
  unfold insert_after, enumerate.
  intros ([i c] & Hin & [_ Hic]%elem_of_enumerate_from)%list_elem_of_bind.
  simpl in Hin. apply elem_of_cons in Hin as [-> | Hin].
  - rewrite Forall_forall in Hc. eapply Hc, list_elem_of_lookup_2, Hic.
  - apply list_elem_of_fmap in Hin as ([q y] & -> & [_ Hy]%list_elem_of_filter).
    rewrite Forall_forall in Hx. apply Hx.
    apply list_elem_of_fmap. by exists (q, y).
Qed.

Lemma swap_chars_Forall chars i : Forall P chars → Forall P (swap_chars chars i).
Proof.
  intros Hc. unfold swap_chars.
  destruct (chars !! i) as [a|] eqn:Ha; [| done].
  destruct (chars !! S i) as [b|] eqn:Hb; [| done].
  apply Forall_insert; [apply Forall_insert; [done |] |].
  - eapply Forall_lookup_1; [exact Hc | exact Hb].
  - eapply Forall_lookup_1; [exact Hc | exact Ha].
Qed.

Lemma foldl_swap_chars_Forall chars (ps : list nat) :
  Forall P chars → Forall P (foldl swap_chars chars ps).
Proof.
  revert chars. induction ps as [|i ps IH]; intros chars Hc; [done |].
  simpl. by apply IH, swap_chars_Forall.
Qed.

Lemma product_Forall (ls : list (list ascii)) ed :
  Forall (Forall P) ls → ed ∈ product ls → Forall P ed.
Proof.
  intros Hls Hed%product_Forall2. revert Hls.
  induction Hed as [|x l ed ls Hx _ IH]; intros Hls; [done |].
  apply Forall_cons in Hls as [Hl Hls].
  constructor; [| by apply IH]. rewrite Forall_forall in Hl. by apply Hl.
Qed.

Lemma table_values_Forall (cases : gmap ascii (list ascii)) s (edit : list site) :
  Forall P (mjoin (map_to_list cases).*2) →
  edit `sublist_of` sub_edits cases s →
  Forall (Forall P) edit.*2.
Proof.
  intros Hall Hsub. apply Forall_fmap, Forall_forall.
  intros [p reps] He. simpl.
  assert ((p, reps) ∈ sub_edits cases s) as Hsite by by eapply elem_of_sublist.
  apply elem_of_sub_edits in Hsite as (c & _ & Hreps).
  apply Forall_forall. intros x Hx.
  rewrite Forall_forall in Hall. apply Hall.
  apply list_elem_of_join. exists reps. split; [done |].
  apply list_elem_of_fmap. exists (c, reps). split; [done |].
  by apply elem_of_map_to_list.
Qed.

Lemma affix_Forall (cases : list string) affix :
  Forall P (mjoin (chars_of <$> cases)) → affix ∈ cases →
  Forall P (chars_of affix).
Proof.
  intros Hall Hin. apply Forall_forall. intros x Hx.
  rewrite Forall_forall in Hall. apply Hall.
  apply list_elem_of_join. exists (chars_of affix). split; [done |].
  apply list_elem_of_fmap. by exists affix.
Qed.

Lemma apply_chars op s strs out :
  Forall P (op_chars op) → Forall P (chars_of s) →
  apply op s = Some strs → out ∈ strs → Forall P (chars_of out).
Proof.
  intros Hop Hs Happ Hout.
  destruct op as [cases max|cases max|cases max|cases max|cases|cases];
    simpl in Hop.
  - rewrite apply_SubOp in Happ. injection Happ as <-.
    apply elem_of_mjoin_fmap in Hout
      as (edit & [_ Hsub]%elem_of_site_combinations & Hout).
    apply list_elem_of_fmap in Hout as (ed & -> & Hed).
    rewrite chars_of_join. apply assign_all_Forall; [done |].
    pose proof (product_length _ _ Hed) as Hlen. rewrite length_fmap in Hlen.
    rewrite snd_zip by (rewrite length_fmap; lia).
    eapply product_Forall; [| done]. by eapply table_values_Forall.
  - destruct (apply_TraOp cases max s) as (sites & _ & Heq).
    rewrite Heq in Happ. injection Happ as <-.
    apply elem_of_mjoin_fmap in Hout as (ps & _ & ->%list_elem_of_singleton).
    rewrite chars_of_join. by apply foldl_swap_chars_Forall.
  - pose proof (apply_InsOp cases max s) as Heq.
    rewrite Heq in Happ. injection Happ as <-.
    apply elem_of_mjoin_fmap in Hout
      as (edit & [_ Hsub]%elem_of_site_combinations & Hout).
    rewrite ins_strs_insert_after in Hout.
    apply list_elem_of_filter in Hout as [_ (ed & -> & Hed)%list_elem_of_fmap].
    rewrite chars_of_join. apply insert_after_Forall; [done |].
    pose proof (product_length _ _ Hed) as Hlen. rewrite length_fmap in Hlen.
    rewrite snd_zip by (rewrite length_fmap; lia).
    eapply product_Forall; [| done]. by eapply table_values_Forall.
  - pose proof (apply_DelOp cases max s) as Heq.
    rewrite Heq in Happ. injection Happ as <-.
    apply elem_of_mjoin_fmap in Hout
      as (edit & [_ Hsub]%elem_of_site_combinations & Hout).
    destruct (del_generate_shape _ _ _ _ Hsub Hout) as (_ & _ & Hsubl).
    apply Forall_forall. intros x Hx. rewrite Forall_forall in Hs.
    by eapply Hs, elem_of_sublist.
  - simpl in Happ. injection Happ as <-. unfold pre_apply in Hout.
    apply list_elem_of_filter in Hout as [_ (affix & -> & Haffix)%list_elem_of_fmap].
    rewrite chars_of_app. apply Forall_app. split; [| done].
    by eapply affix_Forall.
  - simpl in Happ. injection Happ as <-. unfold suf_apply in Hout.
    apply list_elem_of_filter in Hout as [_ (affix & -> & Haffix)%list_elem_of_fmap].
    rewrite chars_of_app. apply Forall_app. split; [done |].
    by eapply affix_Forall.
Qed.
End candidates.

(** X8. No candidate is empty: for a target that is not the empty
    string and any profile, every string [generate_users] returns has at
    least one character. *)
Theorem generate_users_nonempty (target : string) (profile : list EditOp)
    (users : list string) :
  target ≠ ""%string → generate_users target profile = Some users →
  Forall (λ user, user ≠ ""%string) users.
Proof.
  intros Hne Hgen.
  destruct (generate_users_Some target profile) as (users' & Hexp & Hgen' & _).
  rewrite Hgen in Hgen'. injection Hgen' as <-.
  eapply (expand_profile_Forall (λ user, 1 ≤ String.length user)) in Hexp.
  - apply Forall_cons in Hexp as [_ Hall].
    eapply Forall_impl; [done |]. by intros [|c user] Hlen; [simpl in Hlen; lia |].
  - intros op s strs out ? ? ?. by eapply apply_nonempty.
  - apply Forall_singleton. destruct target; [done | simpl; lia].
Qed.

Lemma generate_users_nonempty_witness :
  Forall (λ user, user ≠ ""%string) ["o"%string].
Proof.
  apply (generate_users_nonempty "oo" [DelOp ["o"%char] 2]).
  - done.
  - by vm_compute.
Defined.

(** X9. The candidates are made of the characters of the target and of
    the tables: a property of characters that holds of every character of
    the target and of every value of the tables of the profile holds of
    every character of every candidate. *)
Theorem generate_users_chars (P : ascii → Prop) (target : string)
    (profile : list EditOp) (users : list string) :
  Forall P (chars_of target) →
  Forall (λ op, Forall P (op_chars op)) profile →
  generate_users target profile = Some users →
  Forall (λ user, Forall P (chars_of user)) users.
Proof.
  intros Ht Hops Hgen.
  destruct (generate_users_Some target profile) as (users' & Hexp & Hgen' & _).
  rewrite Hgen in Hgen'. injection Hgen' as <-.
  eapply (expand_profile_Forall_in (λ user, Forall P (chars_of user))
            [target] profile profile) in Hexp.
  - by apply Forall_cons in Hexp as [_ ?].
  - intros op s strs out Hop Hs Happ Hout.
    eapply apply_chars; [| done | done | done].
    rewrite Forall_forall in Hops. by apply Hops.
  - done.
  - by apply Forall_singleton.
Qed.

Lemma generate_users_chars_witness :
  Forall (λ user, Forall (λ c, is_name_char c = true) (chars_of user))
         ["r0ot"; "ro0t"; "root1"; "r0ot1"; "ro0t1"]%string.
Proof.
  apply (generate_users_chars (λ c, is_name_char c = true) "root"
           [SubOp o_to_0 1; SufOp ["1"%string]]).
  - by repeat constructor.
  - repeat constructor.
  - by vm_compute.
Defined.

(** ** Validated strings *)

Section valid_chars.
Implicit Types (c : ascii) (chars body : list ascii) (s : string).

Lemma is_word_char_lower c :
  is_word_char c = true → is_name_char (lower_char c) = true.
Proof. destruct c as [[] [] [] [] [] [] [] []]; vm_compute; congruence. Qed.

Lemma is_name_char_word c : is_name_char c = true → is_word_char c = true.
Proof. destruct c as [[] [] [] [] [] [] [] []]; vm_compute; congruence. Qed.

Lemma lower_char_name c : is_name_char c = true → lower_char c = c.
Proof. destruct c as [[] [] [] [] [] [] [] []]; vm_compute; congruence. Qed.

Lemma newline_not_word : is_word_char "010" = false.
Proof. done. Qed.

Lemma lower_char_newline : lower_char "010" = "010"%char.
Proof. done. Qed.

Lemma match_word_chars_cons c rest :
  rest ≠ [] →
  match_word_chars (c :: rest)
  = is_word_char c && (bool_decide (rest = ["010"%char]) || match_word_chars rest).
Proof.
  intros Hne. destruct rest as [|r [|r2 rest]]; [done | |].
  - change (match_word_chars [c; r])
      with (is_word_char c && (bool_decide (r = "010"%char)
                               || match_word_chars [r])).
    f_equal. f_equal.
    apply bool_decide_ext. split; [by intros -> | by intros [= ->]].
  - change (match_word_chars (c :: r :: r2 :: rest))
      with (is_word_char c && match_word_chars (r :: r2 :: rest)).
    by rewrite bool_decide_false.
Qed.

Lemma match_word_chars_newline : match_word_chars ["010"%char] = false.
Proof. done. Qed.

(** The strings the pattern accepts: a non-empty run of the class,
    possibly followed by one final newline. *)
Lemma match_word_chars_spec chars :
  match_word_chars chars = true ↔
  ∃ body, body ≠ [] ∧ Forall (λ c, is_word_char c = true) body ∧
          (chars = body ∨ chars = body ++ ["010"%char]).
Proof.
  split.
  - induction chars as [|c rest IH]; [done |].
    destruct (decide (rest = [])) as [-> | Hne].
    + simpl. rewrite andb_true_r. intros Hc. exists [c].
      split; [done |]. split; [by constructor | by left].
    + rewrite match_word_chars_cons by done.
      intros [Hc [Hnl%bool_decide_eq_true | Hrest]%orb_true_iff]%andb_true_iff.
      * subst. exists [c]. split; [done |]. split; [by constructor | by right].
      * destruct (IH Hrest) as (body & _ & Hbody & Heq).
        exists (c :: body). split; [done |]. split; [by constructor |].
        destruct Heq as [-> | ->]; [by left | by right].
  - intros (body & Hne & Hbody & Heq).
    assert (match_word_chars body = true ∧
            match_word_chars (body ++ ["010"%char]) = true) as [H1 H2].
    { clear Heq. induction Hbody as [|c body Hc Hbody IH]; [done |].
      destruct (decide (body = [])) as [-> | Hne'].
      - simpl. by rewrite Hc.
      - destruct (IH Hne') as [IH1 IH2].
        rewrite <-app_comm_cons, !match_word_chars_cons, Hc, IH1, IH2;
          [by rewrite !orb_true_r | by destruct body | done]. }
    by destruct Heq as [-> | ->].
Qed.

Lemma length_lower s : String.length (lower s) = String.length s.
Proof. unfold lower. by rewrite length_join, length_fmap, length_chars_of. Qed.

Lemma chars_of_lower s : chars_of (lower s) = lower_char <$> chars_of s.
Proof. unfold lower. by rewrite chars_of_join. Qed.

Lemma lower_chars_idemp chars :
  Forall (λ c, is_name_char c = true ∨ c = "010"%char) chars →
  lower_char <$> chars = chars.
Proof.
  induction 1 as [|c chars [Hc | ->] _ IH]; [done | |]; rewrite fmap_cons, IH.
  - by rewrite lower_char_name.
  - done.
Qed.

Lemma valid_chars_lower s : valid_chars s = true → name_shape (lower s).
Proof.
  intros (body & Hne & Hbody & Heq)%match_word_chars_spec.
  exists (lower_char <$> body). split; [by destruct body |]. split.
  - apply Forall_fmap. eapply Forall_impl; [done |].
    intros c. apply is_word_char_lower.
  - rewrite chars_of_lower.
    destruct Heq as [-> | ->]; [by left | right]. by rewrite fmap_app.
Qed.

Lemma name_shape_valid s :
  name_shape s → valid_chars s = true ∧ lower s = s.
Proof.
  intros (body & Hne & Hbody & Heq). split.
  - apply match_word_chars_spec. exists body. split; [done |].
    split; [| done]. eapply Forall_impl; [done |]. apply is_name_char_word.
  - rewrite <-(join_chars_of s) at 2. unfold lower. f_equal.
    apply lower_chars_idemp.
    destruct Heq as [-> | ->].
    + eapply Forall_impl; [done |]. by left.
    + apply Forall_app. split; [eapply Forall_impl; [done |]; by left |].
      apply Forall_singleton. by right.
Qed.
End valid_chars.

(** ** The parsers of strings *)

Section parse_strings.
Context {number : Type}.
Implicit Types (obj : json number) (s : string) (c : ascii).

Lemma unique_NoDup {A} `{EqDecision A} (l : list A) : NoDup (unique l).
Proof.
  assert (Hin : ∀ l : list A, ∀ x, x ∈ unique l → x ∈ l).
  { intros l0. induction l0 as [|y l0 IH] using unique_ind; intros x; [done |].
    rewrite unique_cons, !elem_of_cons.
    intros [-> | [_ ?]%IH%list_elem_of_filter]; [by left | by right]. }
  induction l as [|y l IH] using unique_ind; [apply NoDup_nil_2 |].
  rewrite unique_cons. apply NoDup_cons. split; [| done].
  by intros [? _]%Hin%list_elem_of_filter.
Qed.

Lemma elem_of_unique {A} `{EqDecision A} (l : list A) x : x ∈ unique l ↔ x ∈ l.
Proof.
  revert x. induction l as [|y l IH] using unique_ind; intros x; [done |].
  rewrite unique_cons, !elem_of_cons, IH, list_elem_of_filter.
  destruct (decide (x = y)); tauto.
Qed.

Lemma parse_str_Some obj min max s :
  parse_str obj min max = Some s ↔
  ∃ s0, obj = JStr s0 ∧ min ≤ String.length s0 ≤ max ∧
        valid_chars s0 = true ∧ s = lower s0.
Proof.
  split.
  - destruct obj as [| | |s0| |]; simpl; try done.
    repeat case_decide; try done.
    destruct (valid_chars s0) eqn:Hv; [| done].
    intros [= <-]. exists s0. repeat split; [lia | lia | done].
  - intros (s0 & -> & Hlen & Hv & ->). simpl.
    rewrite !decide_False by lia. by rewrite Hv.
Qed.

Lemma parse_str_shape obj min max s :
  parse_str obj min max = Some s →
  name_shape s ∧ min ≤ String.length s ≤ max.
Proof.
  intros (s0 & -> & Hlen & Hv & ->)%parse_str_Some.
  split; [by apply valid_chars_lower | by rewrite length_lower].
Qed.

Lemma parse_str_again obj min max s :
  parse_str obj min max = Some s →
  parse_str (number:=number) (JStr s) min max = Some s.
Proof.
  intros [[Hv Hl]%name_shape_valid Hlen]%parse_str_shape.
  apply parse_str_Some. by exists s.
Qed.

Lemma char_of_Some s c : char_of s = Some c ↔ s = String c "".
Proof.
  split; [| by intros ->].
  destruct s as [|c' [|]]; simpl; try done. by intros [= ->].
Qed.

Lemma parse_char_Some obj c :
  parse_char (number:=number) obj = Some c ↔
  ∃ c0, obj = JStr (String c0 "") ∧ is_word_char c0 = true ∧ c = lower_char c0.
Proof.
  unfold parse_char. split.
  - destruct (parse_str obj 1 1) as [s|] eqn:Hs; simpl; [| done].
    intros ->%char_of_Some.
    apply parse_str_Some in Hs as (s0 & -> & Hlen & Hv & Heq).
    destruct s0 as [|c0 [|]]; simpl in Hlen; try lia.
    exists c0. split; [done |].
    unfold valid_chars in Hv. simpl in Hv. rewrite andb_true_r in Hv.
    split; [done |]. by injection Heq.
  - intros (c0 & -> & Hc & ->).
    assert (parse_str (number:=number) (JStr (String c0 "")) 1 1
            = Some (String (lower_char c0) "")) as ->; [| done].
    apply parse_str_Some. exists (String c0 ""). split; [done |].
    split; [simpl; lia |]. split; [| done].
    unfold valid_chars. simpl. by rewrite Hc.
Qed.

Lemma parse_char_name obj c :
  parse_char (number:=number) obj = Some c → is_name_char c = true.
Proof. intros (c0 & _ & Hc & ->)%parse_char_Some. by apply is_word_char_lower. Qed.

Lemma parse_str_set_Some obj min max strs :
  parse_str_set obj min max = Some strs →
  ∃ l, obj = JList l ∧ NoDup strs ∧
    (∀ s, s ∈ strs ↔ ∃ o, o ∈ l ∧ parse_str o min max = Some s) ∧
    Forall (λ o, is_Some (parse_str o min max)) l.
Proof.
  destruct obj as [| | | |l|]; simpl; try done.
  destruct (mapM (λ o, parse_str o min max) l) as [parsed|] eqn:Hm;
    simpl; [| done].
  intros [= <-]. exists l. split; [done |]. split; [apply unique_NoDup |].
  apply mapM_Some in Hm. split.
  - intros s. rewrite elem_of_unique. split.
    + intros Hs. apply list_elem_of_lookup in Hs as [i Hi].
      destruct (Forall2_lookup_r _ _ _ _ _ Hm Hi) as (o & Ho & Hp).
      exists o. split; [by eapply list_elem_of_lookup_2 | done].
    + intros (o & Ho & Hp). apply list_elem_of_lookup in Ho as [i Hi].
      destruct (Forall2_lookup_l _ _ _ _ _ Hm Hi) as (s' & Hs' & Hp').
      rewrite Hp in Hp'. injection Hp' as <-.
      by eapply list_elem_of_lookup_2.
  - clear -Hm. induction Hm; constructor; eauto.
Qed.

Lemma parse_char_set_Some obj chars :
  parse_char_set obj = Some chars →
  ∃ l, obj = JList l ∧ NoDup chars ∧
    (∀ c, c ∈ chars ↔ ∃ o, o ∈ l ∧ parse_char o = Some c) ∧
    Forall (λ c, is_name_char c = true) chars.
Proof.
  unfold parse_char_set.
  destruct (parse_str_set obj 1 1) as [strs|] eqn:Hs; simpl; [| done].
  intros Hm%mapM_Some.
  apply parse_str_set_Some in Hs as (l & -> & Hnd & Hin & _).
  assert (strs = (λ c, String c "") <$> chars) as ->.
  { clear -Hm. induction Hm as [|s c strs chars ->%char_of_Some _ IH]; [done |].
    simpl. by rewrite IH. }
  assert (Hin' : ∀ c, c ∈ chars ↔ ∃ o, o ∈ l ∧ parse_char o = Some c).
  { intros c. split.
    - intros Hc. destruct (proj1 (Hin (String c ""))) as (o & Ho & Hp).
      { apply list_elem_of_fmap. by exists c. }
      exists o. split; [done |]. unfold parse_char. by rewrite Hp.
    - intros (o & Ho & Hp). unfold parse_char in Hp.
      destruct (parse_str o 1 1) as [s|] eqn:Hs; simpl in Hp; [| done].
      apply char_of_Some in Hp as ->.
      assert (String c "" ∈ (λ c, String c "") <$> chars) as Hc
        by (apply Hin; by exists o).
      by apply list_elem_of_fmap in Hc as (c' & [= ->] & Hc'). }
  exists l. split; [done |]. split; [by eapply NoDup_fmap_1 |].
  split; [done |].
  apply Forall_forall. intros c (o & _ & Hp)%Hin'. by eapply parse_char_name.
Qed.
End parse_strings.

(** X10. [parse_str] succeeds exactly on a string whose length is
    between [min] and [max] and that the pattern accepts, and returns it
    in lower case.  The result has the same bounds, consists of one or
    more characters of [[a-z0-9_]] possibly followed by one final newline,
    and parses to itself.  A final newline is accepted: [$] matches
    before it. *)
Theorem parse_str_accepts {number : Type} (obj : json number) (min max : nat) :
  (∀ s, parse_str obj min max = Some s ↔
        ∃ s0, obj = JStr s0 ∧ min ≤ String.length s0 ≤ max ∧
              valid_chars s0 = true ∧ s = lower s0) ∧
  (∀ s, parse_str obj min max = Some s →
        name_shape s ∧ min ≤ String.length s ≤ max ∧
        parse_str (number:=number) (JStr s) min max = Some s) ∧
  (∀ body, body ≠ [] → Forall (λ c, is_word_char c = true) body →
           min ≤ S (length body) ≤ max →
           parse_str (number:=number) (JStr (join (body ++ ["010"%char]))) min max
           = Some (join ((lower_char <$> body) ++ ["010"%char]))).
Proof.
  split; [| split].
  - intros s. apply parse_str_Some.
  - intros s Hs. destruct (parse_str_shape _ _ _ _ Hs) as [Hshape Hlen].
    split; [done |]. split; [done |]. by eapply parse_str_again.
  - intros body Hne Hbody Hlen. apply parse_str_Some.
    exists (join (body ++ ["010"%char])). split; [done |].
    split; [rewrite length_join, length_app; simpl; lia |]. split.
    + unfold valid_chars. rewrite chars_of_join.
      apply match_word_chars_spec. exists body. by repeat split; [| | right].
    + unfold lower. by rewrite chars_of_join, fmap_app.
Qed.

Lemma parse_str_accepts_witness :
  parse_str (number:=Z) (JStr "Root_1") 1 15 = Some "root_1"%string ∧
  parse_str (number:=Z) (JStr (join (chars_of "ab" ++ ["010"%char]))) 1 15
  = Some (join ((lower_char <$> chars_of "ab") ++ ["010"%char])).
Proof.
  destruct (parse_str_accepts (number:=Z) (JStr "Root_1") 1 15) as (Hiff & _ & _).
  destruct (parse_str_accepts (number:=Z) (JStr "ab") 1 15) as (_ & _ & Hnl).
  split.
  - apply Hiff. exists "Root_1"%string.
    split; [done |]. split; [simpl; lia |]. by split.
  - apply Hnl; [done | by repeat constructor | simpl; lia].
Defined.

(** X11. [parse_char] succeeds exactly on a string of one character of
    [[a-zA-Z0-9_]] and returns that character in lower case, a character
    of [[a-z0-9_]]: no newline enters a table of characters. *)
Theorem parse_char_accepts {number : Type} (obj : json number) (c : ascii) :
  (parse_char obj = Some c ↔
   ∃ c0, obj = JStr (String c0 "") ∧ is_word_char c0 = true ∧
         c = lower_char c0) ∧
  (parse_char obj = Some c → is_name_char c = true).
Proof. split; [apply parse_char_Some | apply parse_char_name]. Qed.

Lemma parse_char_accepts_witness : is_name_char "o" = true.
Proof.
  apply (parse_char_accepts (number:=Z) (JStr "O") "o").
  apply parse_char_accepts. by exists "O"%char.
Defined.

(** X12. [parse_str_set] succeeds only on a list all of whose elements
    [parse_str] accepts; its result has no duplicate and holds exactly
    the strings parsed from the elements, every one within the bounds
    and of the validated shape.  [parse_char_set] likewise returns
    distinct characters of [[a-z0-9_]], those parsed from the elements. *)
Theorem parse_str_set_result {number : Type} (obj : json number) :
  (∀ min max strs, parse_str_set obj min max = Some strs →
     ∃ l, obj = JList l ∧ NoDup strs ∧
       Forall (λ o, is_Some (parse_str o min max)) l ∧
       (∀ s, s ∈ strs ↔ ∃ o, o ∈ l ∧ parse_str o min max = Some s) ∧
       Forall (λ s, name_shape s ∧ min ≤ String.length s ≤ max) strs) ∧
  (∀ chars, parse_char_set obj = Some chars →
     ∃ l, obj = JList l ∧ NoDup chars ∧
       (∀ c, c ∈ chars ↔ ∃ o, o ∈ l ∧ parse_char o = Some c) ∧
       Forall (λ c, is_name_char c = true) chars).
Proof.
  split.
  - intros min max strs (l & -> & Hnd & Hin & Hall)%parse_str_set_Some.
    exists l. split; [done |]. split; [done |]. split; [done |].
    split; [done |].
    apply Forall_forall. intros s (o & _ & Hp)%Hin. by eapply parse_str_shape.
  - intros chars. apply parse_char_set_Some.
Qed.

Lemma parse_str_set_result_witness :
  ∃ l, JList [JStr "x"; JStr "X"; JStr "y"] = JList l ∧ NoDup ["x"; "y"]%char ∧
    (∀ c, c ∈ ["x"; "y"]%char ↔ ∃ o, o ∈ l ∧ parse_char (number:=Z) o = Some c) ∧
    Forall (λ c, is_name_char c = true) ["x"; "y"]%char.
Proof.
  apply (parse_str_set_result (number:=Z) (JList [JStr "x"; JStr "X"; JStr "y"])).
  by vm_compute.
Defined.

(** X13. [parse_user] drops one leading [@] and validates what is left
    with the bounds 1 and 15.  Its result has between 1 and 15
    characters, is in lower case with the validated shape, and parses to
    itself. *)
Theorem parse_user_result {number : Type} (s u : string) :
  parse_user (number:=number) s = Some u →
  (∃ s', (s = String "@" s' ∨ (s = s' ∧ ∀ rest, s ≠ String "@" rest)) ∧
         valid_chars s' = true ∧ u = lower s') ∧
  1 ≤ String.length u ≤ 15 ∧ name_shape u ∧
  parse_user (number:=number) u = Some u.
Proof.
  unfold parse_user. intros Hp.
  pose proof Hp as (s0 & [= <-] & Hlen & Hv & ->)%parse_str_Some.
  destruct (parse_str_shape _ _ _ _ Hp) as [Hshape Hlen'].
  split; [| split; [done | split; [done |]]].
  - eexists. split; [| done].
    destruct s as [|c s]; [right; by split |].
    destruct (decide (c = "@"%char)) as [-> | Hne]; [by left |].
    right. destruct c as [[] [] [] [] [] [] [] []]; try done; by split; [| intros ? [=]].
  - assert (∀ rest, lower
      (match s with String "@" rest => rest | _ => s end) ≠ String "@" rest)
      as Hnot.
    { intros rest Heq. destruct Hshape as (body & Hne & Hbody & Hchars).
      rewrite Heq in Hchars. simpl in Hchars.
      destruct body as [|c body]; [done |].
      apply Forall_cons in Hbody as [Hc _].
      assert (c = "@"%char) as -> by (destruct Hchars as [[=] | [=]]; done).
      done. }
    set (u := lower _) in *.
    assert (match u with String "@" rest => rest | _ => u end = u) as ->.
    { destruct u as [|c u']; [done |].
      destruct c as [[] [] [] [] [] [] [] []]; try done. by destruct (Hnot u'). }
    by eapply parse_str_again.
Qed.

Lemma parse_user_result_witness :
  parse_user (number:=Z) "root" = Some "root"%string.
Proof.
  apply (parse_user_result (number:=Z) "@Root" "root"). by vm_compute.
Defined.

(** ** The parsers of operations *)

Section parse_ops.
Context {number : Type} (py_int : json number → option Z).
Implicit Types (items : list (string * json number)) (obj : json number).

Lemma parse_pos_int_Some obj n :
  parse_pos_int py_int obj = Some n → py_int obj = Some n ∧ 1 ≤ Z.to_nat n.
Proof.
  unfold parse_pos_int, parse_int.
  destruct (py_int obj) as [num|]; simpl; [| done].
  case_decide; [done |]. intros [= <-]. split; [done | lia].
Qed.

Lemma parse_nneg_int_Some obj n :
  parse_nneg_int py_int obj = Some n → py_int obj = Some n ∧ (0 ≤ n)%Z.
Proof.
  unfold parse_nneg_int, parse_int.
  destruct (py_int obj) as [num|]; simpl; [| done].
  case_decide; [done |]. intros [= <-]. split; [done | lia].
Qed.

Lemma dict_get_Some {V} (d : list (string * V)) k v :
  dict_get d k = Some v → (k, v) ∈ d.
Proof.
  induction d as [|[k' v'] d IH]; simpl; [done |].
  case_decide; [intros [= <-]; subst; left | intros ?; right; by apply IH].
Qed.

Lemma dict_get_is_Some {V} (d : list (string * V)) k :
  k ∈ d.*1 → is_Some (dict_get d k).
Proof.
  induction d as [|[k' v'] d IH]; simpl; [by intros ?%elem_of_nil |].
  case_decide; [by eexists |].
  intros [-> | ?]%elem_of_cons; [done | by apply IH].
Qed.

Lemma parse_op_Some items key max op :
  parse_op items key max = Some op →
  op = items ∧
  (∀ k, k ∈ items.*1 → k = key ∨ (max = true ∧ k = "max"%string)) ∧
  (max = true → "max"%string ∈ items.*1).
Proof.
  unfold parse_op.
  destruct (forallb _ items) eqn:Hall; [| done].
  destruct (max && negb (bool_decide ("max"%string ∈ items.*1))) eqn:Hmax;
    [done |].
  intros [= <-]. split; [done |]. split.
  - intros k ([k' v] & -> & Hin)%list_elem_of_fmap.
    rewrite forallb_forall in Hall.
    apply list_elem_of_In, Hall in Hin. simpl in *.
    apply orb_true_iff in Hin as [?%bool_decide_eq_true
                                 | [-> ?%bool_decide_eq_true]%andb_true_iff];
      [by left | by right].
  - intros ->. simpl in Hmax.
    apply negb_false_iff, bool_decide_eq_true in Hmax. done.
Qed.

(** The tables [parse_sub_op] builds. *)
Lemma parse_subs_inv items (subs subs' : gmap ascii (list ascii)) :
  parse_subs items subs = Some subs' →
  (∀ c reps, subs !! c = Some reps →
     reps ≠ [] ∧ NoDup reps ∧ (c ∉ reps) ∧
     is_name_char c = true ∧ Forall (λ x, is_name_char x = true) reps) →
  ∀ c reps, subs' !! c = Some reps →
    reps ≠ [] ∧ NoDup reps ∧ (c ∉ reps) ∧
    is_name_char c = true ∧ Forall (λ x, is_name_char x = true) reps.
Proof.
  revert subs. induction items as [|[string obj] items IH]; intros subs; simpl.
  { by intros [= <-]. }
  destruct (parse_char (JStr string)) as [char|] eqn:Hchar; simpl; [| done].
  destruct (parse_char_set obj) as [chars0|] eqn:Hchars; simpl; [| done].
  intros Hrest Hinv. eapply IH; [exact Hrest |].
  apply parse_char_name in Hchar.
  apply parse_char_set_Some in Hchars as (l & _ & Hnd & _ & Hnames).
  destruct (filter (λ c, c ≠ char) chars0) as [|x chars] eqn:Hf; [done |].
  intros c reps [[<- <-] | [_ Hc]]%lookup_insert_Some; [| by apply Hinv].
  rewrite <-Hf. split; [by rewrite Hf |]. split; [by apply NoDup_filter |].
  split; [by intros [? _]%list_elem_of_filter |]. split; [done |].
  apply Forall_forall. intros y [_ Hy]%list_elem_of_filter.
  rewrite Forall_forall in Hnames. by apply Hnames.
Qed.

(** The pairs [parse_tra_op] collects. *)
Lemma parse_tras_inv (l : list (json number)) (tras tras' : list (list ascii)) :
  parse_tras l tras = Some tras' →
  NoDup tras ∧
  (∀ pair, pair ∈ tras →
     ∃ a b, pair = [a; b] ∧ a ≠ b ∧
            is_name_char a = true ∧ is_name_char b = true) →
  NoDup tras' ∧
  (∀ pair, pair ∈ tras' →
     ∃ a b, pair = [a; b] ∧ a ≠ b ∧
            is_name_char a = true ∧ is_name_char b = true).
Proof.
  revert tras. induction l as [|obj l IH]; intros tras; simpl.
  { by intros [= <-]. }
  destruct (parse_char_set obj) as [chars|] eqn:Hchars; simpl; [| done].
  case_decide as Hlen; [done |].
  intros Hrest [Hnd Hinv]. eapply IH; [exact Hrest |].
  case_decide as Hin; [done |].
  split.
  - apply NoDup_app. split; [done |]. split; [| apply NoDup_singleton].
    by intros pair Hp ->%list_elem_of_singleton.
  - intros pair [Hp | ->%list_elem_of_singleton]%elem_of_app; [by apply Hinv |].
    apply parse_char_set_Some in Hchars as (_ & _ & Hnd' & _ & Hnames).
    destruct chars as [|a [|b [|]]]; simpl in Hlen; try lia.
    exists a, b. split; [done |].
    apply NoDup_cons in Hnd' as [Ha _].
    apply Forall_cons in Hnames as [Hna Hnames].
    apply Forall_cons in Hnames as [Hnb _].
    split; [| done]. intros ->. apply Ha. left.
Qed.

(** The tables [parse_ins_op] builds. *)
Lemma parse_ins_inv items (ins ins' : gmap ascii (list ascii)) :
  parse_ins items ins = Some ins' →
  (∀ c chars, ins !! c = Some chars →
     NoDup chars ∧ is_name_char c = true ∧
     Forall (λ x, is_name_char x = true) chars) →
  ∀ c chars, ins' !! c = Some chars →
    NoDup chars ∧ is_name_char c = true ∧
    Forall (λ x, is_name_char x = true) chars.
Proof.
  revert ins. induction items as [|[s o] items IH]; intros ins; simpl.
  { by intros [= <-]. }
  destruct (parse_char (JStr s)) as [char|] eqn:Hchar; simpl; [| done].
  destruct (parse_char_set o) as [chars0|] eqn:Hchars; simpl; [| done].
  intros Hrest Hinv. eapply IH; [exact Hrest |].
  apply parse_char_name in Hchar.
  apply parse_char_set_Some in Hchars as (l & _ & Hnd & _ & Hnames).
  intros c chars [[<- <-] | [_ Hc]]%lookup_insert_Some; [done | by apply Hinv].
Qed.

Lemma op_parsers_keys :
  (op_parsers py_int).*1 = ["sub"; "tra"; "ins"; "del"; "pre"; "suf"]%string.
Proof. done. Qed.
End parse_ops.

Section parse_ops_results.
Context {number : Type} (py_int : json number → option Z).
Implicit Types (items : list (string * json number)) (op : EditOp).

(** What the four parsers with a bound share: the keys of the object and
    the bound. *)
Lemma parse_max_Some items key kept maxv n :
  parse_op items key true = Some kept →
  dict_get kept "max"%string = Some maxv →
  parse_pos_int py_int maxv = Some n →
  (∀ k, k ∈ items.*1 → k = key ∨ k = "max"%string) ∧
  dict_get items "max"%string = Some maxv ∧ py_int maxv = Some n ∧
  1 ≤ Z.to_nat n.
Proof.
  intros (-> & Hkeys & _)%parse_op_Some Hget [Hint Hpos]%parse_pos_int_Some.
  split; [| done]. intros k [? | [_ ?]]%Hkeys; [by left | by right].
Qed.

Lemma parse_sub_op_Some items op :
  parse_sub_op py_int items = Some op →
  op_key op = "sub"%string ∧ valid_op op ∧ op_table_names op ∧
  (∀ k, k ∈ items.*1 → k = "sub"%string ∨ k = "max"%string) ∧
  ∃ maxv n, dict_get items "max"%string = Some maxv ∧
            py_int maxv = Some n ∧ op_max op = Some (Z.to_nat n).
Proof.
  unfold parse_sub_op.
  destruct (parse_op items "sub" true) as [kept|] eqn:Hop; simpl; [| done].
  destruct (dict_get kept "sub"%string) as [sub|] eqn:Hsub; simpl; [| done].
  destruct (as_dict sub) as [entries|] eqn:Hentries; simpl; [| done].
  destruct (parse_subs entries ∅) as [subs|] eqn:Hsubs; simpl; [| done].
  destruct (dict_get kept "max"%string) as [maxv|] eqn:Hmaxv; simpl; [| done].
  destruct (parse_pos_int py_int maxv) as [n|] eqn:Hn; simpl; [| done].
  intros [= <-].
  destruct (parse_max_Some _ _ _ _ _ Hop Hmaxv Hn) as (Hkeys & Hget & Hint & Hpos).
  pose proof (parse_subs_inv _ _ _ Hsubs) as Hinv.
  assert (Hall : ∀ c reps, subs !! c = Some reps →
    reps ≠ [] ∧ NoDup reps ∧ (c ∉ reps) ∧
    is_name_char c = true ∧ Forall (λ x, is_name_char x = true) reps).
  { apply Hinv. intros c reps. by rewrite lookup_empty. }
  split; [done |]. split; [| split; [| split; [done |]]].
  - split; [done |]. intros c reps Hc.
    by destruct (Hall _ _ Hc) as (? & ? & ? & _).
  - intros c reps Hc. by destruct (Hall _ _ Hc) as (_ & _ & _ & ? & ?).
  - by exists maxv, n.
Qed.

Lemma parse_tra_op_Some items op :
  parse_tra_op py_int items = Some op →
  op_key op = "tra"%string ∧ valid_op op ∧ op_table_names op ∧
  (∀ k, k ∈ items.*1 → k = "tra"%string ∨ k = "max"%string) ∧
  ∃ maxv n, dict_get items "max"%string = Some maxv ∧
            py_int maxv = Some n ∧ op_max op = Some (Z.to_nat n).
Proof.
  unfold parse_tra_op.
  destruct (parse_op items "tra" true) as [kept|] eqn:Hop; simpl; [| done].
  destruct (dict_get kept "tra"%string) as [tra|] eqn:Htra; simpl; [| done].
  destruct (as_list tra) as [l|] eqn:Hl; simpl; [| done].
  destruct (parse_tras l []) as [tras|] eqn:Htras; simpl; [| done].
  destruct (dict_get kept "max"%string) as [maxv|] eqn:Hmaxv; simpl; [| done].
  destruct (parse_pos_int py_int maxv) as [n|] eqn:Hn; simpl; [| done].
  intros [= <-].
  destruct (parse_max_Some _ _ _ _ _ Hop Hmaxv Hn) as (Hkeys & Hget & Hint & Hpos).
  destruct (parse_tras_inv _ _ _ Htras) as [Hnd Hpairs].
  { split; [apply NoDup_nil_2 | by intros ? ?%elem_of_nil]. }
  split; [done |]. split; [| split; [| split; [done |]]].
  - split; [done |]. split; [done |].
    intros pair (a & b & -> & ? & _)%Hpairs. by exists a, b.
  - apply Forall_forall. intros pair (a & b & -> & _ & ? & ?)%Hpairs.
    by repeat constructor.
  - by exists maxv, n.
Qed.

Lemma parse_ins_op_Some items op :
  parse_ins_op py_int items = Some op →
  op_key op = "ins"%string ∧ valid_op op ∧ op_table_names op ∧
  (∀ k, k ∈ items.*1 → k = "ins"%string ∨ k = "max"%string) ∧
  ∃ maxv n, dict_get items "max"%string = Some maxv ∧
            py_int maxv = Some n ∧ op_max op = Some (Z.to_nat n).
Proof.
  unfold parse_ins_op.
  destruct (parse_op items "ins" true) as [kept|] eqn:Hop; simpl; [| done].
  destruct (dict_get kept "ins"%string) as [entries0|] eqn:He0; simpl; [| done].
  destruct (as_dict entries0) as [entries|] eqn:Hentries; simpl; [| done].
  destruct (parse_ins entries ∅) as [ins|] eqn:Hins; simpl; [| done].
  destruct (dict_get kept "max"%string) as [maxv|] eqn:Hmaxv; simpl; [| done].
  destruct (parse_pos_int py_int maxv) as [n|] eqn:Hn; simpl; [| done].
  intros [= <-].
  destruct (parse_max_Some _ _ _ _ _ Hop Hmaxv Hn) as (Hkeys & Hget & Hint & Hpos).
  pose proof (parse_ins_inv _ _ _ Hins) as Hinv.
  assert (Hall : ∀ c chars, ins !! c = Some chars →
    NoDup chars ∧ is_name_char c = true ∧
    Forall (λ x, is_name_char x = true) chars).
  { apply Hinv. intros c chars. by rewrite lookup_empty. }
  split; [done |]. split; [| split; [| split; [done |]]].
  - split; [done |]. intros c chars Hc. by destruct (Hall _ _ Hc) as (? & _).
  - intros c chars Hc. by destruct (Hall _ _ Hc) as (_ & ? & ?).
  - by exists maxv, n.
Qed.

Lemma parse_del_op_Some items op :
  parse_del_op py_int items = Some op →
  op_key op = "del"%string ∧ valid_op op ∧ op_table_names op ∧
  (∀ k, k ∈ items.*1 → k = "del"%string ∨ k = "max"%string) ∧
  ∃ maxv n, dict_get items "max"%string = Some maxv ∧
            py_int maxv = Some n ∧ op_max op = Some (Z.to_nat n).
Proof.
  unfold parse_del_op.
  destruct (parse_op items "del" true) as [kept|] eqn:Hop; simpl; [| done].
  destruct (dict_get items "del"%string) as [del|] eqn:Hdel; simpl; [| done].
  destruct (parse_char_set del) as [chars|] eqn:Hchars; simpl; [| done].
  destruct (dict_get kept "max"%string) as [maxv|] eqn:Hmaxv; simpl; [| done].
  destruct (parse_pos_int py_int maxv) as [n|] eqn:Hn; simpl; [| done].
  intros [= <-].
  destruct (parse_max_Some _ _ _ _ _ Hop Hmaxv Hn) as (Hkeys & Hget & Hint & Hpos).
  apply parse_char_set_Some in Hchars as (l & _ & Hnd & _ & Hnames).
  split; [done |]. split; [done |]. split; [done |]. split; [done |].
  by exists maxv, n.
Qed.

Lemma parse_affixes_Some (obj : json number) strs :
  parse_str_set obj 1 14 = Some strs →
  NoDup strs ∧ (∀ affix, affix ∈ strs → 1 ≤ String.length affix ≤ 14) ∧
  Forall name_shape strs.
Proof.
  intros (l & _ & Hnd & Hin & _)%parse_str_set_Some.
  split; [done |]. split.
  - intros affix (o & _ & Hp)%Hin. by apply parse_str_shape in Hp as [_ ?].
  - apply Forall_forall. intros affix (o & _ & Hp)%Hin.
    by apply parse_str_shape in Hp as [? _].
Qed.

Lemma parse_pre_op_Some items op :
  parse_pre_op items = Some op →
  op_key op = "pre"%string ∧ valid_op op ∧ op_table_names op ∧
  (∀ k, k ∈ items.*1 → k = "pre"%string).
Proof.
  unfold parse_pre_op.
  destruct (parse_op items "pre" false) as [kept|] eqn:Hop; simpl; [| done].
  destruct (dict_get kept "pre"%string) as [pre|] eqn:Hpre; simpl; [| done].
  destruct (parse_str_set pre 1 14) as [strs|] eqn:Hstrs; simpl; [| done].
  intros [= <-].
  apply parse_op_Some in Hop as (-> & Hkeys & _).
  apply parse_affixes_Some in Hstrs as (Hnd & Hlen & Hshape).
  split; [done |]. split; [done |]. split; [done |].
  by intros k [? | [? _]]%Hkeys.
Qed.

Lemma parse_suf_op_Some items op :
  parse_suf_op items = Some op →
  op_key op = "suf"%string ∧ valid_op op ∧ op_table_names op ∧
  (∀ k, k ∈ items.*1 → k = "suf"%string).
Proof.
  unfold parse_suf_op.
  destruct (parse_op items "suf" false) as [kept|] eqn:Hop; simpl; [| done].
  destruct (dict_get kept "suf"%string) as [suf|] eqn:Hsuf; simpl; [| done].
  destruct (parse_str_set suf 1 14) as [strs|] eqn:Hstrs; simpl; [| done].
  intros [= <-].
  apply parse_op_Some in Hop as (-> & Hkeys & _).
  apply parse_affixes_Some in Hstrs as (Hnd & Hlen & Hshape).
  split; [done |]. split; [done |]. split; [done |].
  by intros k [? | [? _]]%Hkeys.
Qed.

(** [parse_profile]: one operation for an object, chosen by the only
    operation key the object has. *)
Lemma parse_profile_op_Some (obj1 : json number) op :
  parse_profile_op py_int obj1 = Some op →
  ∃ items, obj1 = JDict items ∧
    filter (λ k, k ∈ ["sub"; "tra"; "ins"; "del"; "pre"; "suf"]%string) items.*1
    = [op_key op] ∧
    (∀ k, k ∈ items.*1 → k = op_key op ∨ (k = "max"%string ∧ is_Some (op_max op))) ∧
    valid_op op ∧ op_table_names op.
Proof.
  unfold parse_profile_op.
  destruct obj1 as [| | | | |items]; simpl; try done.
  destruct (filter _ items.*1) as [|key [|]] eqn:Hf; try done.
  intros Hp. exists items. split; [done |].
  repeat case_decide; subst; simpl in Hp; [| | | | | | done].
  - apply parse_sub_op_Some in Hp as (Hk & ? & ? & Hkeys & _).
    rewrite Hk. split; [done |]. split; [| done].
    intros k [? | ?]%Hkeys; [by left | right]. split; [done |].
    destruct op; simpl in *; by eauto.
  - apply parse_tra_op_Some in Hp as (Hk & ? & ? & Hkeys & _).
    rewrite Hk. split; [done |]. split; [| done].
    intros k [? | ?]%Hkeys; [by left | right]. split; [done |].
    destruct op; simpl in *; by eauto.
  - apply parse_ins_op_Some in Hp as (Hk & ? & ? & Hkeys & _).
    rewrite Hk. split; [done |]. split; [| done].
    intros k [? | ?]%Hkeys; [by left | right]. split; [done |].
    destruct op; simpl in *; by eauto.
  - apply parse_del_op_Some in Hp as (Hk & ? & ? & Hkeys & _).
    rewrite Hk. split; [done |]. split; [| done].
    intros k [? | ?]%Hkeys; [by left | right]. split; [done |].
    destruct op; simpl in *; by eauto.
  - apply parse_pre_op_Some in Hp as (Hk & ? & ? & Hkeys).
    rewrite Hk. split; [done |]. split; [| done].
    intros k ?%Hkeys. by left.
  - apply parse_suf_op_Some in Hp as (Hk & ? & ? & Hkeys).
    rewrite Hk. split; [done |]. split; [| done].
    intros k ?%Hkeys. by left.
Qed.
End parse_ops_results.

(** X14. When [parse_sub_op] succeeds the object has no key but ["sub"]
    and ["max"], the bound is what [int] makes of the value of ["max"] and
    is at least 1, and in the table every key and replacement is a
    character of [[a-z0-9_]], every replacement list is not empty, has no
    duplicate and does not contain its key. *)
Theorem parse_sub_op_valid {number : Type} (py_int : json number → option Z)
    (items : list (string * json number)) (op : EditOp) :
  parse_sub_op py_int items = Some op →
  op_key op = "sub"%string ∧ valid_op op ∧ op_table_names op ∧
  (∀ k, k ∈ items.*1 → k = "sub"%string ∨ k = "max"%string) ∧
  ∃ maxv n, dict_get items "max"%string = Some maxv ∧
            py_int maxv = Some n ∧ op_max op = Some (Z.to_nat n).
Proof. apply parse_sub_op_Some. Qed.

Lemma parse_sub_op_valid_witness :
  valid_op (SubOp o_to_0 1).
Proof.
  refine (proj1 (proj2 (parse_sub_op_valid
    (λ obj : json Z, match obj with JNum n => Some n | _ => None end)
    [("sub"%string, JDict [("O"%string, JList [JStr "0"; JStr "o"])]);
     ("max"%string, JNum 1%Z)] (SubOp o_to_0 1) _))).
  by vm_compute.
Defined.

(** X15. When [parse_tra_op] succeeds the object has no key but ["tra"]
    and ["max"], the bound is at least 1, and the table is a list without
    duplicate of pairs of two distinct characters of [[a-z0-9_]]. *)
Theorem parse_tra_op_valid {number : Type} (py_int : json number → option Z)
    (items : list (string * json number)) (op : EditOp) :
  parse_tra_op py_int items = Some op →
  op_key op = "tra"%string ∧ valid_op op ∧ op_table_names op ∧
  (∀ k, k ∈ items.*1 → k = "tra"%string ∨ k = "max"%string) ∧
  ∃ maxv n, dict_get items "max"%string = Some maxv ∧
            py_int maxv = Some n ∧ op_max op = Some (Z.to_nat n).
Proof. apply parse_tra_op_Some. Qed.

Lemma parse_tra_op_valid_witness :
  valid_op (TraOp [["a"; "b"]]%char 2).
Proof.
  refine (proj1 (proj2 (parse_tra_op_valid
    (λ obj : json Z, match obj with JNum n => Some n | _ => None end)
    [("tra"%string, JList [JList [JStr "a"; JStr "B"]; JList [JStr "A"; JStr "b"]]);
     ("max"%string, JNum 2%Z)] (TraOp [["a"; "b"]]%char 2) _))).
  by vm_compute.
Defined.

(** X16. When [parse_ins_op] succeeds the object has no key but ["ins"]
    and ["max"], the bound is at least 1, and in the table every key and
    insertion character is a character of [[a-z0-9_]] and no insertion
    list has a duplicate. *)
Theorem parse_ins_op_valid {number : Type} (py_int : json number → option Z)
    (items : list (string * json number)) (op : EditOp) :
  parse_ins_op py_int items = Some op →
  op_key op = "ins"%string ∧ valid_op op ∧ op_table_names op ∧
  (∀ k, k ∈ items.*1 → k = "ins"%string ∨ k = "max"%string) ∧
  ∃ maxv n, dict_get items "max"%string = Some maxv ∧
            py_int maxv = Some n ∧ op_max op = Some (Z.to_nat n).
Proof. apply parse_ins_op_Some. Qed.

Lemma parse_ins_op_valid_witness :
  valid_op (InsOp o_to_0 1).
Proof.
  refine (proj1 (proj2 (parse_ins_op_valid
    (λ obj : json Z, match obj with JNum n => Some n | _ => None end)
    [("ins"%string, JDict [("o"%string, JList [JStr "0"])]);
     ("max"%string, JNum 1%Z)] (InsOp o_to_0 1) _))).
  by vm_compute.
Defined.

(** X17. When [parse_del_op] succeeds the object has no key but ["del"]
    and ["max"], the bound is at least 1, and the table is a list without
    duplicate of characters of [[a-z0-9_]]. *)
Theorem parse_del_op_valid {number : Type} (py_int : json number → option Z)
    (items : list (string * json number)) (op : EditOp) :
  parse_del_op py_int items = Some op →
  op_key op = "del"%string ∧ valid_op op ∧ op_table_names op ∧
  (∀ k, k ∈ items.*1 → k = "del"%string ∨ k = "max"%string) ∧
  ∃ maxv n, dict_get items "max"%string = Some maxv ∧
            py_int maxv = Some n ∧ op_max op = Some (Z.to_nat n).
Proof. apply parse_del_op_Some. Qed.

Lemma parse_del_op_valid_witness :
  valid_op (DelOp ["o"]%char 3).
Proof.
  refine (proj1 (proj2 (parse_del_op_valid
    (λ obj : json Z, match obj with JNum n => Some n | _ => None end)
    [("del"%string, JList [JStr "o"; JStr "O"]); ("max"%string, JNum 3%Z)]
    (DelOp ["o"]%char 3) _))).
  by vm_compute.
Defined.

(** X18. When [parse_pre_op] or [parse_suf_op] succeeds the object has
    no key but ["pre"], respectively ["suf"] (a key ["max"] is refused),
    and the table is a list without duplicate of validated strings of 1
    to 14 characters. *)
Theorem parse_affix_op_valid {number : Type}
    (items : list (string * json number)) (op : EditOp) :
  (parse_pre_op items = Some op →
   op_key op = "pre"%string ∧ valid_op op ∧ op_table_names op ∧
   (∀ k, k ∈ items.*1 → k = "pre"%string)) ∧
  (parse_suf_op items = Some op →
   op_key op = "suf"%string ∧ valid_op op ∧ op_table_names op ∧
   (∀ k, k ∈ items.*1 → k = "suf"%string)).
Proof. split; [apply parse_pre_op_Some | apply parse_suf_op_Some]. Qed.

Lemma parse_affix_op_valid_witness :
  valid_op (SufOp ["1"; "_x"]%string).
Proof.
  refine (proj1 (proj2 (proj2 (parse_affix_op_valid (number:=Z)
    [("suf"%string, JList [JStr "1"; JStr "_X"; JStr "1"])]
    (SufOp ["1"; "_x"]%string)) _))).
  by vm_compute.
Defined.

(** X19. When [parse_profile] succeeds on a decoded profile, the profile
    is a list of objects and the result has one operation for each, in
    order: the object has exactly one of the six operation keys, which
    selects the kind of the operation; its other keys can only be
    ["max"], for a kind with a bound; and the operation has a validated
    table. *)
Theorem parse_profile_obj_result {number : Type}
    (py_int : json number → option Z) (obj : json number)
    (profile : list EditOp) :
  parse_profile_obj py_int obj = Some profile →
  ∃ l, obj = JList l ∧
    Forall2 (λ obj1 op,
      ∃ items, obj1 = JDict items ∧
        filter (λ k, k ∈ ["sub"; "tra"; "ins"; "del"; "pre"; "suf"]%string)
               items.*1 = [op_key op] ∧
        (∀ k, k ∈ items.*1 →
              k = op_key op ∨ (k = "max"%string ∧ is_Some (op_max op))) ∧
        valid_op op ∧ op_table_names op) l profile.
Proof.
  unfold parse_profile_obj. destruct obj as [| | | |l|]; simpl; try done.
  intros Hm%mapM_Some. exists l. split; [done |].
  eapply Forall2_impl; [done |]. intros obj1 op. apply parse_profile_op_Some.
Qed.

Lemma parse_profile_obj_result_witness :
  ∃ l, JList [JDict [("sub"%string, JDict [("o"%string, JList [JStr "0"])]);
                     ("max"%string, JNum 1%Z)];
              JDict [("suf"%string, JList [JStr "1"])]] = JList l ∧
    Forall2 (λ obj1 op,
      ∃ items, obj1 = JDict items ∧
        filter (λ k, k ∈ ["sub"; "tra"; "ins"; "del"; "pre"; "suf"]%string)
               items.*1 = [op_key op] ∧
        (∀ k, k ∈ items.*1 →
              k = op_key op ∨ (k = "max"%string ∧ is_Some (op_max op))) ∧
        valid_op op ∧ op_table_names op)
      l [SubOp o_to_0 1; SufOp ["1"%string]].
Proof.
  apply (parse_profile_obj_result
    (λ obj : json Z, match obj with JNum n => Some n | _ => None end)).
  by vm_compute.
Defined.

(** ** From validated inputs to candidates *)

Section pipeline.
Context {number : Type} (py_int : json number → option Z).

Lemma name_shape_chars s :
  name_shape s →
  Forall (λ c, is_name_char c = true ∨ c = "010"%char) (chars_of s).
Proof.
  intros (body & _ & Hbody & [-> | ->]).
  - eapply Forall_impl; [done |]. by left.
  - apply Forall_app. split; [eapply Forall_impl; [done |]; by left |].
    apply Forall_singleton. by right.
Qed.

Lemma op_table_names_chars op :
  op_table_names op →
  Forall (λ c, is_name_char c = true ∨ c = "010"%char) (op_chars op).
Proof.
  assert (Hmap : ∀ cases : gmap ascii (list ascii),
    (∀ c reps, cases !! c = Some reps →
       is_name_char c = true ∧ Forall (λ x, is_name_char x = true) reps) →
    Forall (λ c, is_name_char c = true ∨ c = "010"%char)
           (mjoin (map_to_list cases).*2)).
  { intros cases Hnames. apply Forall_forall.
    intros x (reps & Hx & ([c reps'] & -> & Hc)%list_elem_of_fmap)%list_elem_of_join.
    apply elem_of_map_to_list, Hnames in Hc as [_ Hreps].
    rewrite Forall_forall in Hreps. left. by apply Hreps. }
  assert (Haffix : ∀ cases : list string, Forall name_shape cases →
    Forall (λ c, is_name_char c = true ∨ c = "010"%char)
           (mjoin (chars_of <$> cases))).
  { intros cases Hshape. apply Forall_forall.
    intros x (chars & Hx & (affix & -> & Haffix)%list_elem_of_fmap)%list_elem_of_join.
    rewrite Forall_forall in Hshape.
    apply Hshape, name_shape_chars in Haffix.
    rewrite Forall_forall in Haffix. by apply Haffix. }
  destruct op; simpl; intros Hnames; auto.
Qed.

Lemma parse_user_Some s target :
  parse_user (number:=number) s = Some target →
  name_shape target ∧ 1 ≤ String.length target ≤ 15.
Proof. unfold parse_user. apply parse_str_shape. Qed.
End pipeline.

(** X20. From validated inputs to candidates: for a profile accepted by
    [parse_profile] and a target accepted by [parse_user], every string
    [generate_users] returns has between 1 and 15 characters, all of them
    characters of [[a-z0-9_]] or newlines; and no operation of the
    profile returns its input among its outputs. *)
Theorem validated_candidates {number : Type} (py_int : json number → option Z)
    (obj : json number) (s target : string) (profile : list EditOp)
    (users : list string) :
  parse_profile_obj py_int obj = Some profile →
  parse_user (number:=number) s = Some target →
  generate_users target profile = Some users →
  Forall (λ user,
            1 ≤ String.length user ≤ 15 ∧
            Forall (λ c, is_name_char c = true ∨ c = "010"%char)
                   (chars_of user)) users ∧
  Forall (λ op, ∀ u strs, apply op u = Some strs → u ∉ strs) profile.
Proof.
  intros Hprofile [Hshape Hlen]%parse_user_Some Hgen.
  assert (Forall (λ op, valid_op op ∧ op_table_names op) profile) as Hops.
  { unfold parse_profile_obj in Hprofile.
    destruct obj as [| | | |l|]; simpl in Hprofile; try done.
    apply mapM_Some in Hprofile. clear -Hprofile.
    induction Hprofile as [|obj1 op l profile Hp _ IH]; constructor; [| done].
    by apply parse_profile_op_Some in Hp as (_ & _ & _ & _ & ? & ?). }
  destruct (generate_users_Some target profile) as (users' & Hexp & Hgen' & _).
  rewrite Hgen in Hgen'. injection Hgen' as <-.
  split.
  - eapply (expand_profile_Forall_in
      (λ user, 1 ≤ String.length user ≤ 15 ∧
               Forall (λ c, is_name_char c = true ∨ c = "010"%char)
                      (chars_of user)) [target] profile profile) in Hexp.
    + by apply Forall_cons in Hexp as [_ ?].
    + intros op u strs out Hop [[H1 H15] Hchars] Happ Hout.
      split; [split |].
      * by eapply apply_nonempty.
      * by eapply apply_length.
      * eapply apply_chars; [| done | done | done].
        rewrite Forall_forall in Hops.
        by apply op_table_names_chars, Hops.
    + done.
    + apply Forall_singleton. split; [done | by apply name_shape_chars].
  - eapply Forall_impl; [exact Hops |].
    intros op [Hvalid _] u strs. by apply valid_op_not_input.
Qed.

Lemma validated_candidates_witness :
  Forall (λ user,
            1 ≤ String.length user ≤ 15 ∧
            Forall (λ c, is_name_char c = true ∨ c = "010"%char)
                   (chars_of user))
         ["r0ot"; "ro0t"; "root1"; "r0ot1"; "ro0t1"]%string.
Proof.
  refine (proj1 (validated_candidates
    (λ obj : json Z, match obj with JNum n => Some n | _ => None end)
    (JList [JDict [("sub"%string, JDict [("o"%string, JList [JStr "0"])]);
                   ("max"%string, JNum 1%Z)];
            JDict [("suf"%string, JList [JStr "1"])]])
    "@Root" "root" [SubOp o_to_0 1; SufOp ["1"%string]]
    ["r0ot"; "ro0t"; "root1"; "r0ot1"; "ro0t1"]%string _ _ _));
    by vm_compute.
Defined.

(** ** More on the outputs of the positional operations *)

Section outputs.
Implicit Types (s out : string) (chars : list ascii).

Lemma swap_chars_Permutation chars i : swap_chars chars i ≡ₚ chars.
Proof.
  unfold swap_chars.
  destruct (chars !! i) as [a|] eqn:Ha; [| done].
  destruct (chars !! S i) as [b|] eqn:Hb; [| done].
  assert (chars = take i chars ++ a :: b :: drop (S (S i)) chars) as Hd.
  { rewrite <-(drop_S _ _ _ Hb). by rewrite take_drop_middle. }
  assert (length (take i chars) = i) as Hlen.
  { apply lookup_lt_Some in Ha. rewrite length_take. lia. }
  revert Hd Hlen. generalize (take i chars) (drop (S (S i)) chars).
  intros l1 l2 -> <-.
  replace (length l1) with (length l1 + 0) at 2 by lia.
  rewrite insert_app_r. simpl.
  replace (S (length l1)) with (length l1 + 1) by lia.
  rewrite insert_app_r. simpl.
  apply Permutation_app_head, perm_swap.
Qed.

Lemma foldl_swap_chars_Permutation chars (ps : list nat) :
  foldl swap_chars chars ps ≡ₚ chars.
Proof.
  revert chars. induction ps as [|i ps IH]; intros chars; [done |].
  simpl. by rewrite IH, swap_chars_Permutation.
Qed.

Lemma site_combinations_app {E} m k (es : list E) :
  site_combinations (m + k) es
  = site_combinations m es ++ (i ← seq m k; combinations (S i) es).
Proof. unfold site_combinations. by rewrite seq_app, bind_app. Qed.

Lemma mjoin_fmap_prefix {E} (strs : E → list string) (l1 l2 : list E) :
  mjoin (strs <$> l1) `prefix_of` mjoin (strs <$> (l1 ++ l2)).
Proof. rewrite fmap_app, list.join_app. by apply prefix_app_r. Qed.

Lemma sub_strs_sites cases s edit out :
  edit `sublist_of` sub_edits cases s → out ∈ sub_strs s edit →
  String.length out = String.length s ∧
  (∀ p, p ∉ edit.*1 → chars_of out !! p = chars_of s !! p) ∧
  Forall (λ e, ∃ c x, chars_of s !! e.1 = Some c ∧ cases !! c = Some e.2 ∧
                      x ∈ e.2 ∧ chars_of out !! e.1 = Some x) edit.
Proof.
  intros Hsub Hout. pose proof Hout as (ed & -> & Hed)%list_elem_of_fmap.
  destruct (sublist_sites_range _ _ _ (sub_edits_sublist cases s) Hsub)
    as [Hps Hrange].
  pose proof (product_length _ _ Hed) as Hlen. rewrite length_fmap in Hlen.
  apply product_Forall2 in Hed.
  split; [by eapply sub_strs_length |]. rewrite chars_of_join. split.
  - intros p Hp. apply lookup_assign_all_notin.
    by rewrite fst_zip by (rewrite length_fmap; lia).
  - apply Forall_forall. intros [p reps] He.
    apply list_elem_of_lookup in He as [j Hj].
    assert ((p, reps) ∈ sub_edits cases s) as Hsite
      by (eapply elem_of_sublist; [by eapply list_elem_of_lookup_2 | done]).
    apply elem_of_sub_edits in Hsite as (c & Hc & Hreps).
    destruct (lookup_lt_is_Some_2 ed j) as [x Hx].
    { rewrite Hlen. by eapply lookup_lt_Some. }
    exists c, x. split; [done |]. split; [done |]. split.
    + assert (edit.*2 !! j = Some reps) as Hr
        by by rewrite list_lookup_fmap, Hj.
      by pose proof (Forall2_lookup_lr _ _ _ _ _ _ Hed Hx Hr).
    + simpl. apply lookup_assign_all_in.
      * rewrite fst_zip by (rewrite length_fmap; lia).
        by eapply sublist_seq_NoDup.
      * apply list_elem_of_lookup. exists j.
        by rewrite lookup_zip_with, list_lookup_fmap, Hj, Hx.
      * by eapply lookup_lt_Some.
Qed.
End outputs.

(** X21. Every output of Substitution has the length of the input and
    differs from it only at the sites of one combination: between 1 and
    [max] positions whose character is a key of the table, each holding
    one of the replacements the table gives for that character. *)
Theorem apply_SubOp_shape (cases : gmap ascii (list ascii)) (max : nat)
    (s : string) (strs : list string) (out : string) :
  apply (SubOp cases max) s = Some strs → out ∈ strs →
  String.length out = String.length s ∧
  ∃ edit : list site,
    1 ≤ length edit ≤ max ∧ NoDup edit.*1 ∧
    (∀ p, p ∉ edit.*1 → chars_of out !! p = chars_of s !! p) ∧
    Forall (λ e, ∃ c x, chars_of s !! e.1 = Some c ∧ cases !! c = Some e.2 ∧
                        x ∈ e.2 ∧ chars_of out !! e.1 = Some x) edit.
Proof.
  rewrite apply_SubOp. intros [= <-].
  intros (edit & [Hr Hsub]%elem_of_site_combinations & Hout)%elem_of_mjoin_fmap.
  destruct (sub_strs_sites _ _ _ _ Hsub Hout) as (Hlen & Hother & Hsites).
  split; [done |]. exists edit. split; [done |]. split; [| done].
  destruct (sublist_sites_range _ _ _ (sub_edits_sublist cases s) Hsub)
    as [Hps _].
  by eapply sublist_seq_NoDup.
Qed.

Lemma apply_SubOp_shape_witness :
  String.length "r0ot" = String.length "root".
Proof.
  refine (proj1 (apply_SubOp_shape o_to_0 1 "root" ["r0ot"; "ro0t"]%string
                   "r0ot" _ _)).
  - by vm_compute.
  - apply list_elem_of_here.
Defined.

(** X22. Every output of Transposition is a rearrangement of the
    characters of the input: the swaps move characters and neither add
    nor lose one. *)
Theorem apply_TraOp_permutation (cases : list (list ascii)) (max : nat)
    (s : string) (strs : list string) (out : string) :
  apply (TraOp cases max) s = Some strs → out ∈ strs →
  chars_of out ≡ₚ chars_of s.
Proof.
  destruct (apply_TraOp cases max s) as (sites & _ & ->). intros [= <-].
  intros (edit & _ & ->%list_elem_of_singleton)%elem_of_mjoin_fmap.
  rewrite chars_of_join. apply foldl_swap_chars_Permutation.
Qed.

Lemma apply_TraOp_permutation_witness :
  chars_of "bca" ≡ₚ chars_of "abc".
Proof.
  apply (apply_TraOp_permutation [["a"; "b"]; ["b"; "c"]]%char 2 "abc"
           ["bac"; "acb"; "bca"]%string).
  - by vm_compute.
  - apply list_elem_of_In. simpl. tauto.
Defined.

(** X23. Raising the bound [max] of an operation only appends outputs:
    the outputs for a bound are a prefix of the outputs for any larger
    bound, in the same order. *)
Theorem apply_max_prefix (op : EditOp) (s : string) (m k : nat) :
  ∃ strs strs',
    apply (with_max op m) s = Some strs ∧
    apply (with_max op (m + k)) s = Some strs' ∧
    strs `prefix_of` strs'.
Proof.
  destruct op as [cases max|cases max|cases max|cases max|cases|cases];
    cbn [with_max].
  - rewrite !apply_SubOp. eexists _, _. split; [done |]. split; [done |].
    rewrite site_combinations_app. apply mjoin_fmap_prefix.
  - destruct (apply_TraOp cases m s) as (sites & Hsites & ->).
    destruct (apply_TraOp cases (m + k) s) as (sites' & Hsites' & ->).
    rewrite Hsites in Hsites'. injection Hsites' as <-.
    eexists _, _. split; [done |]. split; [done |].
    rewrite site_combinations_app. apply mjoin_fmap_prefix.
  - rewrite !apply_InsOp. eexists _, _. split; [done |]. split; [done |].
    rewrite site_combinations_app. apply mjoin_fmap_prefix.
  - rewrite !apply_DelOp. eexists _, _. split; [done |]. split; [done |].
    rewrite site_combinations_app. apply mjoin_fmap_prefix.
  - by eexists _, _.
  - by eexists _, _.
Qed.
